(** * A model predictive controller for path tracking: MPC.cpp and main.cpp

    Shallow embedding of the cost/constraint evaluator [FG_eval], of
    [MPC::Solve], of [polyeval], [polyfit] and of the telemetry branch of the
    message handler, followed by the properties established about them.

    Numbers.  The program computes on [double]; the embedding computes on
    the real numbers [R], so every statement below is a statement about the
    program's formulas in exact arithmetic (no rounding, no overflow, no
    NaN).  Indices and sizes are [size_t]/[unsigned int] in the source and
    [nat] here; the source subtracts from [N] ([N - 1], [N - 2]), which does
    not wrap exactly when [2 <= N], and the statements that depend on it
    carry that hypothesis (the source fixes [N = 15]).

    External code.  Two library calls are not part of the sources: Eigen's
    [householderQr().solve] and CppAD's [ipopt::solve].  Both are taken as
    parameters of the definitions that call them. *)

From Stdlib Require Import Floats.
From Stdlib Require Import String Ascii.
From Stdlib Require Import Reals Lra Lia ZArith Bool Arith List.
Import ListNotations.

(* ================================================================== *)
(** * Vectors and counted loops *)
(* ================================================================== *)

(** [CPPAD_TESTVECTOR(double)], [Eigen::VectorXd] and [std::vector<double>]:
    a sequence of numbers read and written by index.  An index outside the
    vector is undefined behaviour in the source (an assertion failure in a
    debug build); here a read outside yields [0] and a write outside leaves
    the vector as it is.  The statements below fix the length of a vector
    where what they say depends on it (the vector [fg] the evaluator writes
    to); where they do not, they hold for every vector, so for the ones of
    the right length the program builds. *)
Definition vec := list R.

Definition vget (v : vec) (i : nat) : R := nth i v 0%R.

Fixpoint vset {T : Type} (v : list T) (i : nat) (a : T) : list T :=
  match v, i with
  | [], _ => []
  | _ :: v', O => a :: v'
  | b :: v', S j => b :: vset v' j a
  end.

(** [Dvector v(n)]: a fresh vector of [n] entries. *)
Definition vnew (n : nat) : vec := repeat 0%R n.

(** [result.push_back(a)]. *)
Definition push_back (v : vec) (a : R) : vec := v ++ [a].

(** [for (t = 0; t < n; t++) body]: the body for [t = 0], then [t = 1], ...,
    last [t = n - 1], each on the state the previous one left. *)
Fixpoint for_loop {St : Type} (n : nat) (body : nat -> St -> St) (s : St) : St :=
  match n with
  | O => s
  | S k => body k (for_loop k body s)
  end.

(** [for (i = lo; i < hi; i++) body]. *)
Definition for_range {St : Type} (lo hi : nat) (body : nat -> St -> St) (s : St) : St :=
  for_loop (hi - lo) (fun k => body (lo + k)%nat) s.

(* ================================================================== *)
(** * Strings *)
(* ================================================================== *)

(** The operations of [std::string] the message handler uses.  Positions
    and counts are [size_t], taken as 64 bits wide; a search that finds
    nothing answers [npos], here [None]. *)
Module Str.

Local Open Scope string_scope.

(** The number of values of [size_t]. *)
Definition size_modulus : Z := 2 ^ 64.

(** [s.find(pat)]: the first position where [pat] occurs in [s]. *)
Fixpoint find (pat s : string) : option nat :=
  if prefix pat s then Some 0%nat
  else match s with
       | EmptyString => None
       | String _ s' => option_map S (find pat s')
       end.

(** [s.rfind(pat)]: the last position where [pat] occurs in [s]. *)
Fixpoint rfind (pat s : string) : option nat :=
  match s with
  | EmptyString => if prefix pat s then Some 0%nat else None
  | String _ s' =>
      match rfind pat s' with
      | Some n => Some (S n)
      | None => if prefix pat s then Some 0%nat else None
      end
  end.

Fixpoint mem (c : ascii) (set : string) : bool :=
  match set with
  | EmptyString => false
  | String d set' => Ascii.eqb c d || mem c set'
  end.

(** [s.find_first_of(set)]: the first position of [s] that holds a
    character of [set]. *)
Fixpoint find_first_of (set s : string) : option nat :=
  match s with
  | EmptyString => None
  | String c s' =>
      if mem c set then Some 0%nat else option_map S (find_first_of set s')
  end.

(** [s.substr(pos, count)] for [pos <= s.size()]: the characters from
    [pos] on, [count] of them or as many as there are. *)
Definition substr (s : string) (pos : nat) (count : Z) : string :=
  substring pos
    (Z.to_nat (Z.min count (Z.of_nat (String.length s) - Z.of_nat pos))) s.

End Str.

(* ================================================================== *)
(** * MPC.cpp *)
(* ================================================================== *)

Module MPC.

Local Open Scope R_scope.

(** The timestep duration; the number of timesteps [N] is the variable of
    the section below (the source sets [N = 15]). *)
Definition dt : R := 0.15.

(** Length from front to centre of gravity. *)
Definition Lf : R := 2.67.

Definition ref_cte : R := 0.
Definition ref_epsi : R := 0.
Definition ref_v : R := 80.

(** Weights of the cost function (local constants of [operator()]). *)
Definition w_cte : R := 1000.
Definition w_epsi : R := 1000.
Definition w_dv : R := 1.
Definition w_delta : R := 100.
Definition w_a : R := 10.
Definition w_ddelta : R := 10.
Definition w_da : R := 10.

Section Horizon.

Variable N : nat.

(** Start indices of the blocks of the decision vector. *)
Definition x_start : nat := 0.
Definition y_start : nat := x_start + N.
Definition psi_start : nat := y_start + N.
Definition v_start : nat := psi_start + N.
Definition cte_start : nat := v_start + N.
Definition epsi_start : nat := cte_start + N.
Definition delta_start : nat := epsi_start + N.
Definition a_start : nat := delta_start + N - 1.

Definition n_vars : nat := N * 6 + (N - 1) * 2.
Definition n_constraints : nat := N * 6.

(** ** FG_eval::operator() *)

Section FG_eval.

Variable coeffs : vec.

(** [fg[0] += e]. *)
Definition add_cost (e : R) (fg : vec) : vec := vset fg 0 (vget fg 0 + e).

(** Body of the first loop: the state errors at step [t]. *)
Definition cost_errors (vars : vec) (t : nat) (fg : vec) : vec :=
  let fg := add_cost (w_cte * vget vars (cte_start + t) ^ 2) fg in
  let fg := add_cost (w_epsi * vget vars (epsi_start + t) ^ 2) fg in
  add_cost (w_dv * (vget vars (v_start + t) - ref_v) ^ 2) fg.

(** Body of the second loop: the use of the actuators at step [t]. *)
Definition cost_actuators (vars : vec) (t : nat) (fg : vec) : vec :=
  let fg := add_cost (w_delta * vget vars (delta_start + t) ^ 2) fg in
  add_cost (w_a * vget vars (a_start + t) ^ 2) fg.

(** Body of the third loop: the change of the actuators from [t] to [t+1]. *)
Definition cost_changes (vars : vec) (t : nat) (fg : vec) : vec :=
  let fg := add_cost (w_ddelta *
              (vget vars (delta_start + t + 1) - vget vars (delta_start + t)) ^ 2) fg in
  add_cost (w_da * (vget vars (a_start + t + 1) - vget vars (a_start + t)) ^ 2) fg.

(** The six right-hand sides of the predictive model from time [t] to
    [t+1], as the last loop computes them from the state and the actuation
    at time [t]. *)
Definition f0 (x0 : R) : R :=
  vget coeffs 0 + vget coeffs 1 * x0 + vget coeffs 2 * x0 * x0
  + vget coeffs 3 * x0 * x0 * x0.

Definition psides0 (x0 : R) : R :=
  atan (1 * vget coeffs 1 + 2 * vget coeffs 2 * x0 + 3 * vget coeffs 3 * x0 * x0).

(** Body of the last loop: the constraints between time [t] and [t+1]. *)
Definition model_constraints (vars : vec) (t : nat) (fg : vec) : vec :=
  let x0 := vget vars (x_start + t) in
  let y0 := vget vars (y_start + t) in
  let psi0 := vget vars (psi_start + t) in
  let v0 := vget vars (v_start + t) in
  let cte0 := vget vars (cte_start + t) in
  let epsi0 := vget vars (epsi_start + t) in
  let x1 := vget vars (x_start + t + 1) in
  let y1 := vget vars (y_start + t + 1) in
  let psi1 := vget vars (psi_start + t + 1) in
  let v1 := vget vars (v_start + t + 1) in
  let cte1 := vget vars (cte_start + t + 1) in
  let epsi1 := vget vars (epsi_start + t + 1) in
  let delta0 := vget vars (delta_start + t) in
  let a0 := vget vars (a_start + t) in
  let fg := vset fg (x_start + t + 2) (x1 - (x0 + v0 * cos psi0 * dt)) in
  let fg := vset fg (y_start + t + 2) (y1 - (y0 + v0 * sin psi0 * dt)) in
  let fg := vset fg (psi_start + t + 2) (psi1 - (psi0 + v0 * delta0 / Lf * dt)) in
  let fg := vset fg (v_start + t + 2) (v1 - (v0 + a0 * dt)) in
  let fg := vset fg (cte_start + t + 2)
              (cte1 - ((f0 x0 - y0) + (v0 * sin epsi0 * dt))) in
  vset fg (epsi_start + t + 2)
       (epsi1 - ((psi0 - psides0 x0) + v0 * delta0 / Lf * dt)).

(** [operator()(fg, vars)]: [fg] is passed by reference and written in
    place; the result is [fg] after the call.  Entries the function does
    not assign keep the value the caller put there. *)
Definition FG_eval (fg vars : vec) : vec :=
  let fg := vset fg 0 0 in
  let fg := for_loop N (cost_errors vars) fg in
  let fg := for_loop (N - 1) (cost_actuators vars) fg in
  let fg := for_loop (N - 2) (cost_changes vars) fg in
  let fg := vset fg (x_start + 1) (vget vars x_start) in
  let fg := vset fg (y_start + 1) (vget vars y_start) in
  let fg := vset fg (psi_start + 1) (vget vars psi_start) in
  let fg := vset fg (v_start + 1) (vget vars v_start) in
  let fg := vset fg (cte_start + 1) (vget vars cte_start) in
  let fg := vset fg (epsi_start + 1) (vget vars epsi_start) in
  for_loop (N - 2) (model_constraints vars) fg.

End FG_eval.

(** ** The solver interface *)

(** Modelled from the spec: the status of a solve ([solve_result::status] of
    CppAD's ipopt interface, whose header is not among the sources).  The
    spec tells a successful solve from the two failures it names. *)
Inductive status_type : Type :=
| success
| SolverNonConvergence
| SolverTimeout.

Definition status_is_success (s : status_type) : bool :=
  match s with success => true | _ => false end.

(** Modelled from the spec: the result of a solve ([solve_result<Dvector>]
    of CppAD's ipopt interface, whose header is not among the sources); the
    source reads its fields [status], [obj_value] and [x], the decision
    vector the solver stopped at. *)
Record solve_result : Type := {
  status : status_type;
  x : vec;
  obj_value : R
}.

(** What [MPC::Solve] hands to [CppAD::ipopt::solve]: the options, the
    starting point, the bounds of the variables and of the constraints, and
    the evaluator of the objective and the constraints. *)
Record problem : Type := {
  options : string;
  xi : vec;
  xl : vec;
  xu : vec;
  gl : vec;
  gu : vec;
  fg_eval : vec -> vec -> vec
}.

Definition newline : string := String (ascii_of_nat 10) EmptyString.

Definition solver_options : string :=
  ("Integer print_level  0" ++ newline
   ++ "Sparse  true        forward" ++ newline
   ++ "Sparse  true        reverse" ++ newline
   ++ "Numeric max_cpu_time          0.5" ++ newline)%string.

(** ** MPC::Solve *)

(** The problem built from the state and the coefficients. *)
Definition Solve_problem (state coeffs : vec) : problem :=
  let x := vget state 0 in
  let y := vget state 1 in
  let psi := vget state 2 in
  let v := vget state 3 in
  let cte := vget state 4 in
  let epsi := vget state 5 in
  let vars := for_loop n_vars (fun i vars => vset vars i 0) (vnew n_vars) in
  let vars := vset vars x_start x in
  let vars := vset vars y_start y in
  let vars := vset vars psi_start psi in
  let vars := vset vars v_start v in
  let vars := vset vars cte_start cte in
  let vars := vset vars epsi_start epsi in
  let bounds := (vnew n_vars, vnew n_vars) in
  let bounds :=
    for_range 0 delta_start
      (fun i b => (vset (fst b) i (-1.0e19), vset (snd b) i 1.0e19)) bounds in
  let bounds :=
    for_range delta_start a_start
      (fun i b => (vset (fst b) i (-0.436332), vset (snd b) i 0.436332)) bounds in
  let bounds :=
    for_range a_start n_vars
      (fun i b => (vset (fst b) i (-1.0), vset (snd b) i 1.0)) bounds in
  let cbounds := (vnew n_constraints, vnew n_constraints) in
  let cbounds :=
    for_loop n_constraints
      (fun i b => (vset (fst b) i 0, vset (snd b) i 0)) cbounds in
  let lower := fst cbounds in
  let lower := vset lower x_start x in
  let lower := vset lower y_start y in
  let lower := vset lower psi_start psi in
  let lower := vset lower v_start v in
  let lower := vset lower cte_start cte in
  let lower := vset lower epsi_start epsi in
  let upper := snd cbounds in
  let upper := vset upper x_start x in
  let upper := vset upper y_start y in
  let upper := vset upper psi_start psi in
  let upper := vset upper v_start v in
  let upper := vset upper cte_start cte in
  let upper := vset upper epsi_start epsi in
  {| options := solver_options;
     xi := vars;
     xl := fst bounds;
     xu := snd bounds;
     gl := lower;
     gu := upper;
     fg_eval := FG_eval coeffs |}.

(** The vector [MPC::Solve] builds from the solver's decision vector. *)
Definition Solve_output (solution_x : vec) : vec :=
  let result := [] in
  let result := push_back result (vget solution_x delta_start) in
  let result := push_back result (vget solution_x a_start) in
  for_loop (N - 1)
    (fun i result =>
       let result := push_back result (vget solution_x (x_start + i)) in
       push_back result (vget solution_x (y_start + i)))
    result.

Section Solve.

(** [CppAD::ipopt::solve]. *)
Variable ipopt_solve : problem -> solve_result.

(** The local flag [ok] after the solve. *)
Definition Solve_ok (state coeffs : vec) : bool :=
  let solution := ipopt_solve (Solve_problem state coeffs) in
  true && status_is_success (status solution).

Definition Solve (state coeffs : vec) : vec :=
  let solution := ipopt_solve (Solve_problem state coeffs) in
  let ok := true && status_is_success (status solution) in
  let cost := obj_value solution in
  Solve_output (x solution).

End Solve.

End Horizon.

End MPC.

(* ================================================================== *)
(** * MPC.cpp: the evaluator on doubles *)
(* ================================================================== *)

(** [FG_eval::operator()] a second time, on the numbers the program
    computes with.  A [double] is a binary64 float, and [+], [-], [*], [/]
    are the operations of IEEE 754 rounded to nearest, which is how the
    values of the [AD<double>] entries of [fg] come about; a decimal
    constant of the source is the nearest binary64 number.  Indices are as
    in [MPC] above.

    [CppAD::pow], [CppAD::cos], [CppAD::sin] and [CppAD::atan] are not
    among the sources: the evaluator takes them as parameters. *)
Module Double.

#[local] Set Warnings "-inexact-float".
Local Open Scope float_scope.

Definition dvec := list float.

Definition dget (v : dvec) (i : nat) : float := nth i v 0.

(** [Dvector v(n)]. *)
Definition dnew (n : nat) : dvec := repeat 0 n.

Definition dt : float := 0.15.
Definition Lf : float := 2.67.
Definition ref_v : float := 80.

Definition w_cte : float := 1000.
Definition w_epsi : float := 1000.
Definition w_dv : float := 1.
Definition w_delta : float := 100.
Definition w_a : float := 10.
Definition w_ddelta : float := 10.
Definition w_da : float := 10.

(** The functions of CppAD the evaluator calls. *)
Record cppad : Type := {
  pow : float -> Z -> float;
  cos : float -> float;
  sin : float -> float;
  atan : float -> float
}.

Section FG_eval.

Variable m : cppad.
Variable N : nat.
Variable coeffs : dvec.

Definition add_cost (e : float) (fg : dvec) : dvec := vset fg 0 (dget fg 0 + e).

Definition cost_errors (vars : dvec) (t : nat) (fg : dvec) : dvec :=
  let fg := add_cost (w_cte * pow m (dget vars (MPC.cte_start N + t)) 2) fg in
  let fg := add_cost (w_epsi * pow m (dget vars (MPC.epsi_start N + t)) 2) fg in
  add_cost (w_dv * pow m (dget vars (MPC.v_start N + t) - ref_v) 2) fg.

Definition cost_actuators (vars : dvec) (t : nat) (fg : dvec) : dvec :=
  let fg := add_cost (w_delta * pow m (dget vars (MPC.delta_start N + t)) 2) fg in
  add_cost (w_a * pow m (dget vars (MPC.a_start N + t)) 2) fg.

Definition cost_changes (vars : dvec) (t : nat) (fg : dvec) : dvec :=
  let fg := add_cost
              (w_ddelta * pow m (dget vars (MPC.delta_start N + t + 1)
                                 - dget vars (MPC.delta_start N + t)) 2) fg in
  add_cost (w_da * pow m (dget vars (MPC.a_start N + t + 1)
                          - dget vars (MPC.a_start N + t)) 2) fg.

Definition f0 (x0 : float) : float :=
  dget coeffs 0 + dget coeffs 1 * x0 + dget coeffs 2 * x0 * x0
  + dget coeffs 3 * x0 * x0 * x0.

Definition psides0 (x0 : float) : float :=
  atan m (1 * dget coeffs 1 + 2 * dget coeffs 2 * x0 + 3 * dget coeffs 3 * x0 * x0).

Definition model_constraints (vars : dvec) (t : nat) (fg : dvec) : dvec :=
  let x0 := dget vars (MPC.x_start + t) in
  let y0 := dget vars (MPC.y_start N + t) in
  let psi0 := dget vars (MPC.psi_start N + t) in
  let v0 := dget vars (MPC.v_start N + t) in
  let cte0 := dget vars (MPC.cte_start N + t) in
  let epsi0 := dget vars (MPC.epsi_start N + t) in
  let x1 := dget vars (MPC.x_start + t + 1) in
  let y1 := dget vars (MPC.y_start N + t + 1) in
  let psi1 := dget vars (MPC.psi_start N + t + 1) in
  let v1 := dget vars (MPC.v_start N + t + 1) in
  let cte1 := dget vars (MPC.cte_start N + t + 1) in
  let epsi1 := dget vars (MPC.epsi_start N + t + 1) in
  let delta0 := dget vars (MPC.delta_start N + t) in
  let a0 := dget vars (MPC.a_start N + t) in
  let fg := vset fg (MPC.x_start + t + 2) (x1 - (x0 + v0 * cos m psi0 * dt)) in
  let fg := vset fg (MPC.y_start N + t + 2) (y1 - (y0 + v0 * sin m psi0 * dt)) in
  let fg := vset fg (MPC.psi_start N + t + 2) (psi1 - (psi0 + v0 * delta0 / Lf * dt)) in
  let fg := vset fg (MPC.v_start N + t + 2) (v1 - (v0 + a0 * dt)) in
  let fg := vset fg (MPC.cte_start N + t + 2)
              (cte1 - ((f0 x0 - y0) + (v0 * sin m epsi0 * dt))) in
  vset fg (MPC.epsi_start N + t + 2)
       (epsi1 - ((psi0 - psides0 x0) + v0 * delta0 / Lf * dt)).

(** [fg] after the three loops of the cost. *)
Definition after_cost (fg vars : dvec) : dvec :=
  let fg := vset fg 0 0 in
  let fg := for_loop N (cost_errors vars) fg in
  let fg := for_loop (N - 1) (cost_actuators vars) fg in
  for_loop (N - 2) (cost_changes vars) fg.

Definition FG_eval (fg vars : dvec) : dvec :=
  let fg := after_cost fg vars in
  let fg := vset fg (MPC.x_start + 1) (dget vars MPC.x_start) in
  let fg := vset fg (MPC.y_start N + 1) (dget vars (MPC.y_start N)) in
  let fg := vset fg (MPC.psi_start N + 1) (dget vars (MPC.psi_start N)) in
  let fg := vset fg (MPC.v_start N + 1) (dget vars (MPC.v_start N)) in
  let fg := vset fg (MPC.cte_start N + 1) (dget vars (MPC.cte_start N)) in
  let fg := vset fg (MPC.epsi_start N + 1) (dget vars (MPC.epsi_start N)) in
  for_loop (N - 2) (model_constraints vars) fg.

End FG_eval.

(** What the statements about the cost ask of [CppAD::pow] at the exponent
    [2], the only one the evaluator has: a square is never below zero, and
    the square of a zero ([0.0] or [-0.0]) is [0.0]. *)
Definition squares (m : cppad) : Prop :=
  (forall x, (pow m x 2 <? 0) = false)
  /\ (forall x, (x =? 0) = true -> pow m x 2 = 0).

(** A power with an [int] exponent by repeated multiplication
    ([x * x] for the exponent [2]), each product rounded. *)
Definition pow_int (x : float) (n : Z) : float :=
  match n with
  | Z0 => 1
  | Zpos p => Pos.iter_op PrimFloat.mul p x
  | Zneg p => 1 / Pos.iter_op PrimFloat.mul p x
  end.

(** CppAD with that power, whatever its [cos], [sin] and [atan]. *)
Definition by_multiplication (cos sin atan : float -> float) : cppad :=
  {| pow := pow_int; cos := cos; sin := sin; atan := atan |}.

(** A binary64 number in the terms of IEEE 754 that is not below zero: a
    zero of either sign, a NaN, or a number or an infinity with the sign
    bit clear. *)
Definition not_negative (f : spec_float) : Prop :=
  match f with
  | S754_infinity true | S754_finite true _ _ => False
  | _ => True
  end.

(** A zero of either sign: [x == 0.0]. *)
Definition is_zero (x : float) : Prop := (x =? 0) = true.

(** The entries of a decision vector the cost is zero at. *)
Definition at_the_targets (N : nat) (vars : dvec) : Prop :=
  (forall t, (t < N)%nat ->
     is_zero (dget vars (MPC.cte_start N + t))
     /\ is_zero (dget vars (MPC.epsi_start N + t))
     /\ (dget vars (MPC.v_start N + t) =? ref_v) = true)
  /\ (forall t, (t < N - 1)%nat ->
     is_zero (dget vars (MPC.delta_start N + t))
     /\ is_zero (dget vars (MPC.a_start N + t))).

End Double.

(* ================================================================== *)
(** * main.cpp *)
(* ================================================================== *)

Module Main.

Local Open Scope R_scope.

(** A failed [assert] ends the process; a computation that may do so
    returns the failed assertion or its value, and a failure ends
    everything that would have come after it. *)
Inductive assertion : Type :=
| assert_same_size      (* xvals.size() == yvals.size() *)
| assert_order.         (* order >= 1 && order <= xvals.size() - 1 *)

Definition checked (A : Type) : Type := (assertion + A)%type.

Definition ret {A : Type} (a : A) : checked A := inr a.

Definition bind {A B : Type} (m : checked A) (k : A -> checked B) : checked B :=
  match m with
  | inl e => inl e
  | inr a => k a
  end.

Definition assert_that (b : bool) (e : assertion) : checked unit :=
  if b then inr tt else inl e.

Notation "x <- m ;; k" := (bind m (fun x => k))
  (at level 61, m at next level, right associativity).
Notation "m ;;; k" := (bind m (fun _ => k))
  (at level 61, right associativity).

(** ** Degrees and radians *)

Definition pi : R := PI.
Definition rad2deg (x : R) : R := x * 180 / pi.

(** ** hasData *)

(** The JSON data of a SocketIO event, or the empty string. *)
Definition hasData (s : string) : string :=
  let found_null := Str.find "null" s in
  let b1 := Str.find_first_of "[" s in
  let b2 := Str.rfind "}]" s in
  match found_null with
  | Some _ => ""%string
  | None =>
      match b1, b2 with
      | Some b1, Some b2 =>
          Str.substr s b1 ((Z.of_nat b2 - Z.of_nat b1 + 2) mod Str.size_modulus)
      | _, _ => ""%string
      end
  end.

(** ** The head of the message handler *)

(** What the handler does with a message before any JSON is parsed: it
    ignores it, answers that the car is driven by hand, or parses the data
    it holds. *)
Inductive action : Type :=
| ignore
| send_manual
| parse (s : string).

Definition is_char (n : nat) (c : ascii) (s : string) : bool :=
  match String.get n s with
  | Some d => Ascii.eqb d c
  | None => false
  end.

Definition on_message (sdata : string) : action :=
  if (2 <? String.length sdata)%nat && is_char 0 "4" sdata && is_char 1 "2" sdata
  then
    let s := hasData sdata in
    if negb (String.eqb s "") then parse s else send_manual
  else ignore.

(** ** polyeval *)

Definition polyeval (coeffs : vec) (x : R) : R :=
  for_loop (length coeffs) (fun i result => result + vget coeffs i * x ^ i) 0.0.

(** ** polyfit *)

(** An [Eigen::MatrixXd], as the list of its rows. *)
Definition matrix := list vec.

Definition mget (A : matrix) (j i : nat) : R := vget (nth j A []) i.

Definition mset (A : matrix) (j i : nat) (a : R) : matrix :=
  vset A j (vset (nth j A []) i a).

(** [Eigen::MatrixXd A(rows, cols)]. *)
Definition mnew (rows cols : nat) : matrix := repeat (vnew cols) rows.

(** The design matrix [polyfit] fills: row [j] is
    [1, xvals(j), xvals(j)^2, ...], each entry the previous one times
    [xvals(j)]. *)
Definition design (xvals : vec) (order : nat) : matrix :=
  let A := mnew (length xvals) (order + 1) in
  let A := for_loop (length xvals) (fun i A => mset A i 0 1.0) A in
  for_loop (length xvals)
    (fun j A =>
       for_loop order (fun i A => mset A j (i + 1) (mget A j i * vget xvals j)) A)
    A.

Section Polyfit.

(** [A.householderQr().solve(yvals)], Eigen's least-squares solve. *)
Variable householderQr_solve : matrix -> vec -> vec.

Definition polyfit (xvals yvals : vec) (order : Z) : checked vec :=
  assert_that (length xvals =? length yvals)%nat assert_same_size ;;;
  assert_that ((1 <=? order)%Z && (order <=? Z.of_nat (length xvals) - 1)%Z)
              assert_order ;;;
  let A := design xvals (Z.to_nat order) in
  ret (householderQr_solve A yvals).

End Polyfit.

(** ** The telemetry branch of the message handler *)

(** The fields read from the telemetry event. *)
Record telemetry : Type := {
  ptsx : vec;
  ptsy : vec;
  tel_x : R;
  tel_y : R;
  tel_psi : R;
  speed : R;
  steering_angle : R;
  throttle : R
}.

(** The fields of the reply. *)
Record steer : Type := {
  msg_steering_angle : R;
  msg_throttle : R;
  next_x : vec;
  next_y : vec;
  mpc_x : vec;
  mpc_y : vec
}.

(** The steering angle as the handler uses it: [delta *= -1]. *)
Definition adjust_steering (delta : R) : R := delta * -1.

(** The way-points from the car's perspective. *)
Definition waypoints_in_car_frame (ptsx ptsy : vec) (px py psi : R) : vec * vec :=
  for_loop (length ptsx)
    (fun i w =>
       let x_trans := vget ptsx i - px in
       let y_trans := vget ptsy i - py in
       (vset (fst w) i (x_trans * cos (- psi) - y_trans * sin (- psi)),
        vset (snd w) i (x_trans * sin (- psi) + y_trans * cos (- psi))))
    (vnew (length ptsx), vnew (length ptsy)).

Definition dt_lat : R := 0.1.

Definition Lf : R := 2.67.

(** The state handed to the solver: the errors at the car, then the
    latency adjustment. *)
Definition latency_state (coeffs : vec) (v delta a : R) : vec :=
  let cte := polyeval coeffs 0 in
  let epsi := atan (vget coeffs 1) in
  let x0 := 0 in
  let y0 := 0 in
  let psi0 := 0 in
  let v0 := v in
  if Rlt_dec 0 dt_lat then
    let x0 := x0 + v * cos delta * dt_lat in
    let y0 := y0 + v * sin delta * dt_lat in
    let psi0 := psi0 + v * delta / Lf * dt_lat in
    let v0 := v0 + a * dt_lat in
    let cte := cte + v * sin delta * dt_lat in
    let epsi := epsi + v * delta / Lf * dt_lat in
    [x0; y0; psi0; v0; cte; epsi]
  else
    [x0; y0; psi0; v0; cte; epsi].

(** The reference line sent for display. *)
Definition reference_line (coeffs : vec) : vec * vec :=
  let npoints := 10%nat in
  let dn := 5.0 in
  for_range 1 (npoints + 2)
    (fun i nxt =>
       (push_back (fst nxt) (dn * INR i),
        push_back (snd nxt) (polyeval coeffs (dn * INR i))))
    ([], []).

(** The predicted trajectory sent for display, read off the vector
    [MPC::Solve] returned. *)
Definition predicted_line (vars : vec) : vec * vec :=
  for_range 2 (length vars)
    (fun i m =>
       if (i mod 2 =? 0)%nat
       then (push_back (fst m) (vget vars i), snd m)
       else (fst m, push_back (snd m) (vget vars i)))
    ([], []).

Section Handler.

Variable N : nat.
Variable householderQr_solve : matrix -> vec -> vec.
Variable ipopt_solve : MPC.problem -> MPC.solve_result.

(** The state and the coefficients the handler passes to [mpc.Solve]. *)
Definition solve_arguments (j : telemetry) : checked (vec * vec) :=
  let delta := adjust_steering (steering_angle j) in
  let w := waypoints_in_car_frame (ptsx j) (ptsy j) (tel_x j) (tel_y j) (tel_psi j) in
  coeffs <- polyfit householderQr_solve (fst w) (snd w) 3 ;;
  ret (latency_state coeffs (speed j) delta (throttle j), coeffs).

Definition on_telemetry (j : telemetry) : checked steer :=
  sc <- solve_arguments j ;;
  let state := fst sc in
  let coeffs := snd sc in
  let vars := MPC.Solve N ipopt_solve state coeffs in
  let steer_value := - vget vars 0 in
  let throttle_value := vget vars 1 in
  let nxt := reference_line coeffs in
  let m := predicted_line vars in
  ret {| msg_steering_angle := steer_value;
         msg_throttle := throttle_value;
         next_x := fst nxt;
         next_y := snd nxt;
         mpc_x := fst m;
         mpc_y := snd m |}.

End Handler.

End Main.

(* ================================================================== *)
(** * The properties, in the words of the specification *)
(* ================================================================== *)

Module Spec.

Local Open Scope R_scope.

(** The sum of [f t] over [t = 0 .. n-1]. *)
Fixpoint sum_below (n : nat) (f : nat -> R) : R :=
  match n with
  | O => 0
  | S k => sum_below k f + f k
  end.

Section Layout.

Variable N : nat.
Variable vars : vec.

(** The decision vector: six state blocks [x, y, psi, v, cte, epsi] of
    length [N] each, then the steering block and the acceleration block of
    length [N - 1] each. *)
Definition x_ (t : nat) : R := vget vars t.
Definition y_ (t : nat) : R := vget vars (N + t).
Definition psi_ (t : nat) : R := vget vars (2 * N + t).
Definition v_ (t : nat) : R := vget vars (3 * N + t).
Definition cte_ (t : nat) : R := vget vars (4 * N + t).
Definition epsi_ (t : nat) : R := vget vars (5 * N + t).
Definition delta_ (t : nat) : R := vget vars (6 * N + t).
Definition a_ (t : nat) : R := vget vars (6 * N + (N - 1) + t).

(** The objective of section 4.3 with its default weights: the first sum
    over [t = 0..N-1], the second over [t = 0..N-2], the third over
    [t = 0..N-3]. *)
Definition objective : R :=
  sum_below N (fun t => 1000 * cte_ t ^ 2 + 1000 * epsi_ t ^ 2 + 1 * (v_ t - 80) ^ 2)
  + sum_below (N - 1) (fun t => 100 * delta_ t ^ 2 + 10 * a_ t ^ 2)
  + sum_below (N - 2)
      (fun t => 10 * (delta_ (t + 1) - delta_ t) ^ 2 + 10 * (a_ (t + 1) - a_ t) ^ 2).

(** The output of the solve as section 4.3 words it: the first actuation
    pair, then the predicted positions [(x_t, y_t)] for [t >= 2], of which
    the data model counts [N - 1]. *)
Definition claimed_Solve_output : vec :=
  [delta_ 0; a_ 0] ++ flat_map (fun t => [x_ t; y_ t]) (seq 2 (N - 1)).

End Layout.

(** The safe defaults of section 7 for a cycle whose solve failed: the
    previous command is held, or the steering is zero and the throttle
    decelerates. *)
Definition safe_default (previous_steering previous_throttle : R) (m : Main.steer) : Prop :=
  (Main.msg_steering_angle m = previous_steering
   /\ Main.msg_throttle m = previous_throttle)
  \/ (Main.msg_steering_angle m = 0 /\ Main.msg_throttle m < 0).

(** The kinematic relations of the dynamics constraints of section 4.3,
    over one step of duration [h] from the pose [(x, y, psi)] at speed [v]
    under the actuation [(delta, a)]. *)
Definition bicycle (h x y psi v delta a : R) : vec :=
  [x + v * cos psi * h; y + v * sin psi * h; psi + v * delta / Main.Lf * h; v + a * h].

(** The initial state of section 4.2: the projection by [dt_lat] from the
    origin of the local frame with the relations of section 4.3, then the
    two errors with their first-order correction. *)
Definition claimed_latency_state (coeffs : vec) (v delta_prev a : R) : vec :=
  bicycle Main.dt_lat 0 0 0 v delta_prev a
  ++ [Main.polyeval coeffs 0 + v * sin delta_prev * Main.dt_lat;
      atan (vget coeffs 1) + v * delta_prev / Main.Lf * Main.dt_lat].

(** The sign convention of section 4.4 as one transform, the one between
    the first steering command of the optimizer and the steering sent: the
    steering received enters the core as it is. *)
Definition steering_converted_once
           (householderQr_solve : Main.matrix -> vec -> vec) (j : Main.telemetry) : Prop :=
  forall state coeffs,
    Main.solve_arguments householderQr_solve j = inr (state, coeffs) ->
    state = Main.latency_state coeffs (Main.speed j) (Main.steering_angle j)
                               (Main.throttle j).

(** The scalar product of a row of the design matrix and the coefficients. *)
Fixpoint dot (r c : vec) : R :=
  match r, c with
  | a :: r', b :: c' => a * b + dot r' c'
  | _, _ => 0
  end.

(** The sum of the squares of the residuals of [A c = y]. *)
Definition residual (A : Main.matrix) (c y : vec) : R :=
  sum_below (length A) (fun j => (dot (nth j A []) c - vget y j) ^ 2).

(** [c] is a least-squares solution of [A c = y] for a matrix of [cols]
    columns. *)
Definition least_squares (cols : nat) (A : Main.matrix) (y c : vec) : Prop :=
  length c = cols
  /\ forall c', length c' = cols -> residual A c y <= residual A c' y.

End Spec.

(* ================================================================== *)
(** * Concrete inputs *)
(* ================================================================== *)

Module Examples.

Import MPC Main.
Local Open Scope R_scope.

(** Four way-points on the axis of a car at rest at the origin, the
    previous command being zero steering and zero throttle. *)
Definition on_the_axis : telemetry :=
  {| ptsx := [0; 1; 2; 3]; ptsy := [0; 0; 0; 0];
     tel_x := 0; tel_y := 0; tel_psi := 0;
     speed := 0; steering_angle := 0; throttle := 0 |}.

(** The same with the car at speed [10] and a steering of [0.2] received. *)
Definition turning : telemetry :=
  {| ptsx := [0; 1; 2; 3]; ptsy := [0; 0; 0; 0];
     tel_x := 0; tel_y := 0; tel_psi := 0;
     speed := 10; steering_angle := 0.2; throttle := 0 |}.

(** Three way-points only. *)
Definition three_waypoints : telemetry :=
  {| ptsx := [0; 1; 2]; ptsy := [0; 0; 0];
     tel_x := 0; tel_y := 0; tel_psi := 0;
     speed := 0; steering_angle := 0; throttle := 0 |}.


(** A least-squares solve that answers the zero polynomial (the fit of
    way-points on the axis). *)
Definition fit_zero : matrix -> vec -> vec := fun _ _ => [0; 0; 0; 0].

(** The cubic [1 + 2 x + 3 x^2 + 4 x^3], and a least-squares solve that
    answers it (the fit of its own samples). *)
Definition cubic : vec := [1; 2; 3; 4].
Definition fit_cubic : matrix -> vec -> vec := fun _ _ => cubic.

(** A decision vector for [N = 15] that is zero but for [x_0 = 1]. *)
Definition only_x0 : vec := vset (vnew 118) 0 1.

(** A decision vector for [N = 15] that is zero but for [x_14 = 1]. *)
Definition only_x14 : vec := vset (vnew 118) 14 1.

(** A decision vector for [N = 15] that is zero but for the first
    actuation: [delta_0 = 0.3] and [a_0 = 1]. *)
Definition full_throttle : vec := vset (vset (vnew 118) 90 0.3) 104 1.

(** A solver that stops at the given decision vector with the given
    status. *)
Definition stops_at (s : status_type) (sol : vec) : problem -> solve_result :=
  fun _ => {| status := s; x := sol; obj_value := 0 |}.

End Examples.

(* ================================================================== *)
(** * Auxiliary definitions of the proofs *)
(* ================================================================== *)

Module Aux.

Import MPC.
Local Open Scope R_scope.

(** What additions to [fg[0]] leave: the length and the entries after the
    first are kept, the first has grown by [term]. *)
Definition adds (term : R) (fg fg' : vec) : Prop :=
  length fg' = length fg
  /\ vget fg' 0 = vget fg 0 + term
  /\ forall i, vget fg' (S i) = vget fg (S i).

Section Terms.

Variable N : nat.

(** What one iteration of each of the three loops of the cost adds. *)
Definition errors_term (vars : vec) (t : nat) : R :=
  w_cte * vget vars (cte_start N + t) ^ 2
  + w_epsi * vget vars (epsi_start N + t) ^ 2
  + w_dv * (vget vars (v_start N + t) - ref_v) ^ 2.

Definition actuators_term (vars : vec) (t : nat) : R :=
  w_delta * vget vars (delta_start N + t) ^ 2
  + w_a * vget vars (a_start N + t) ^ 2.

Definition changes_term (vars : vec) (t : nat) : R :=
  w_ddelta * (vget vars (delta_start N + t + 1) - vget vars (delta_start N + t)) ^ 2
  + w_da * (vget vars (a_start N + t + 1) - vget vars (a_start N + t)) ^ 2.

(** [fg] after the three loops of the cost. *)
Definition after_cost (fg vars : vec) : vec :=
  for_loop (N - 2) (cost_changes N vars)
    (for_loop (N - 1) (cost_actuators N vars)
       (for_loop N (cost_errors N vars) (vset fg 0 0))).

End Terms.

(** The indices of the decision vector that hold the last state, the one of
    time [N - 1]. *)
Definition last_state_index (N i : nat) : Prop :=
  i = (x_start + (N - 1))%nat \/ i = (y_start N + (N - 1))%nat
  \/ i = (psi_start N + (N - 1))%nat \/ i = (v_start N + (N - 1))%nat
  \/ i = (cte_start N + (N - 1))%nat \/ i = (epsi_start N + (N - 1))%nat.

(** The predicted positions in the decision vector of the solver. *)
Definition position_x (sol : vec) (t : nat) : R := vget sol (x_start + t).
Definition position_y (N : nat) (sol : vec) (t : nat) : R := vget sol (y_start N + t).

(** The start of the block of the state component [k] ([0] for [x], ...,
    [5] for [epsi]) in the decision vector. *)
Definition block_start (N k : nat) : nat :=
  match k with
  | 0 => x_start
  | 1 => y_start N
  | 2 => psi_start N
  | 3 => v_start N
  | 4 => cte_start N
  | _ => epsi_start N
  end.

(** The residual of the component [k] of the predictive model between the
    times [t] and [t + 1], as the last loop of the evaluator writes it. *)
Definition model_residual (N : nat) (coeffs vars : vec) (k t : nat) : R :=
  let x0 := vget vars (x_start + t) in
  let y0 := vget vars (y_start N + t) in
  let psi0 := vget vars (psi_start N + t) in
  let v0 := vget vars (v_start N + t) in
  let epsi0 := vget vars (epsi_start N + t) in
  let delta0 := vget vars (delta_start N + t) in
  let a0 := vget vars (a_start N + t) in
  let next := vget vars (block_start N k + t + 1) in
  match k with
  | 0 => next - (x0 + v0 * cos psi0 * dt)
  | 1 => next - (y0 + v0 * sin psi0 * dt)
  | 2 => next - (psi0 + v0 * delta0 / Lf * dt)
  | 3 => next - (v0 + a0 * dt)
  | 4 => next - ((f0 coeffs x0 - y0) + (v0 * sin epsi0 * dt))
  | _ => next - ((psi0 - psides0 coeffs x0) + v0 * delta0 / Lf * dt)
  end.

(** What the inner loop of [polyfit] does to one row of the design
    matrix: each entry after the first is the previous one times [x]. *)
Definition row_fill (x : R) (order : nat) (r : vec) : vec :=
  for_loop order (fun i r => vset r (i + 1) (vget r i * x)) r.

(** Two vectors of one length that agree from index [1] on. *)
Definition same_constraints (fg fg' : vec) : Prop :=
  length fg = length fg' /\ forall i, (1 <= i)%nat -> vget fg i = vget fg' i.

End Aux.

(* ================================================================== *)
(** * Notions of the further properties *)
(* ================================================================== *)

Module Props.

Import MPC.
Local Open Scope R_scope.

(** The constraints of a problem hold at the values the evaluator left in
    [fg]: the constraint [i] is the entry [fg[1 + i]] (the entry [fg[0]] is
    the cost), and it is to stay between its lower and its upper bound. *)
Definition constraints_hold (N : nat) (P : problem) (fg : vec) : Prop :=
  forall i, (i < n_constraints N)%nat ->
    vget (gl P) i <= vget fg (S i) <= vget (gu P) i.

(** The state of time [0] of a decision vector is the given state. *)
Definition starts_at (N : nat) (state vars : vec) : Prop :=
  vget vars x_start = vget state 0
  /\ vget vars (y_start N) = vget state 1
  /\ vget vars (psi_start N) = vget state 2
  /\ vget vars (v_start N) = vget state 3
  /\ vget vars (cte_start N) = vget state 4
  /\ vget vars (epsi_start N) = vget state 5.

(** The state of time [t + 1] of a decision vector is the one the
    predictive model of the evaluator gives from the state and the
    actuation of time [t]. *)
Definition follows_model (N : nat) (coeffs vars : vec) (t : nat) : Prop :=
  let x0 := vget vars (x_start + t) in
  let y0 := vget vars (y_start N + t) in
  let psi0 := vget vars (psi_start N + t) in
  let v0 := vget vars (v_start N + t) in
  let epsi0 := vget vars (epsi_start N + t) in
  let delta0 := vget vars (delta_start N + t) in
  let a0 := vget vars (a_start N + t) in
  vget vars (x_start + t + 1) = x0 + v0 * cos psi0 * dt
  /\ vget vars (y_start N + t + 1) = y0 + v0 * sin psi0 * dt
  /\ vget vars (psi_start N + t + 1) = psi0 + v0 * delta0 / Lf * dt
  /\ vget vars (v_start N + t + 1) = v0 + a0 * dt
  /\ vget vars (cte_start N + t + 1) = (f0 coeffs x0 - y0) + (v0 * sin epsi0 * dt)
  /\ vget vars (epsi_start N + t + 1)
     = (psi0 - psides0 coeffs x0) + v0 * delta0 / Lf * dt.

(** Two decision vectors have the same speeds, errors and actuations. *)
Definition same_cost_entries (N : nat) (vars vars' : vec) : Prop :=
  (forall t, (t < N)%nat ->
     vget vars (v_start N + t) = vget vars' (v_start N + t)
     /\ vget vars (cte_start N + t) = vget vars' (cte_start N + t)
     /\ vget vars (epsi_start N + t) = vget vars' (epsi_start N + t))
  /\ (forall t, (t < N - 1)%nat ->
     vget vars (delta_start N + t) = vget vars' (delta_start N + t)
     /\ vget vars (a_start N + t) = vget vars' (a_start N + t)).

End Props.

(* ================================================================== *)
(** * Vectors and loops: basic facts *)
(* ================================================================== *)

Section VectorFacts.

Context {T : Type}.

Lemma length_vset (v : list T) (i : nat) (a : T) :
  length (vset v i a) = length v.
Proof.
  revert i; induction v as [|b v IH]; intros [|i]; simpl; auto.
Qed.

Lemma nth_vset_eq (v : list T) (i : nat) (a d : T) :
  (i < length v)%nat -> nth i (vset v i a) d = a.
Proof.
  revert i; induction v as [|b v IH]; intros [|i] Hi; simpl in *; try lia; auto.
  apply IH; lia.
Qed.

Lemma nth_vset_neq (v : list T) (i j : nat) (a d : T) :
  i <> j -> nth j (vset v i a) d = nth j v d.
Proof.
  revert i j; induction v as [|b v IH]; intros [|i] [|j] Hij; simpl; auto; try lia.
Qed.

End VectorFacts.

Lemma vget_vset_eq (v : vec) (i : nat) (a : R) :
  (i < length v)%nat -> vget (vset v i a) i = a.
Proof. apply nth_vset_eq. Qed.

Lemma vget_vset_neq (v : vec) (i j : nat) (a : R) :
  i <> j -> vget (vset v i a) j = vget v j.
Proof. apply nth_vset_neq. Qed.

Lemma length_vnew (n : nat) : length (vnew n) = n.
Proof. apply repeat_length. Qed.

Lemma vget_vnew (n i : nat) : vget (vnew n) i = 0%R.
Proof.
  unfold vget, vnew. revert i; induction n as [|n IH]; intros [|i]; simpl; auto.
Qed.

Section LoopFacts.

Context {St : Type}.

(** A property every iteration keeps holds after the loop. *)
Lemma for_loop_invariant (P : St -> Prop) (n : nat) (body : nat -> St -> St) (s : St) :
  (forall t s', (t < n)%nat -> P s' -> P (body t s')) ->
  P s -> P (for_loop n body s).
Proof.
  induction n as [|n IH]; intros Hb Hs; simpl; auto.
  apply Hb; [lia|]. apply IH; auto.
Qed.

(** The same with the number of iterations done. *)
Lemma for_loop_counted (P : nat -> St -> Prop) (n : nat) (body : nat -> St -> St) (s : St) :
  (forall t s', (t < n)%nat -> P t s' -> P (S t) (body t s')) ->
  P O s -> P n (for_loop n body s).
Proof.
  induction n as [|n IH]; intros Hb Hs; simpl; auto.
  apply Hb; [lia|]. apply IH; auto.
Qed.

(** Two loops whose bodies keep a relation between their states. *)
Lemma for_loop_related {St' : Type} (Rel : St -> St' -> Prop) (n : nat)
      (body : nat -> St -> St) (body' : nat -> St' -> St') (s : St) (s' : St') :
  (forall t u u', (t < n)%nat -> Rel u u' -> Rel (body t u) (body' t u')) ->
  Rel s s' -> Rel (for_loop n body s) (for_loop n body' s').
Proof.
  induction n as [|n IH]; intros Hb Hs; simpl; auto.
  apply Hb; [lia|]. apply IH; auto.
Qed.

End LoopFacts.

(* ================================================================== *)
(** * FG_eval: the objective *)
(* ================================================================== *)

Section ObjectiveFacts.

Import MPC Aux.
Local Open Scope R_scope.

Lemma length_add_cost (e : R) (fg : vec) : length (add_cost e fg) = length fg.
Proof. apply length_vset. Qed.

Lemma vget_add_cost_0 (e : R) (fg : vec) :
  (0 < length fg)%nat -> vget (add_cost e fg) 0 = vget fg 0 + e.
Proof. intros H. unfold add_cost. now rewrite vget_vset_eq. Qed.

Lemma vget_add_cost_S (e : R) (fg : vec) (i : nat) :
  vget (add_cost e fg) (S i) = vget fg (S i).
Proof. unfold add_cost. now rewrite vget_vset_neq. Qed.

Lemma adds_add_cost (e : R) (fg : vec) :
  (0 < length fg)%nat -> adds e fg (add_cost e fg).
Proof.
  intros H. repeat split.
  - apply length_add_cost.
  - now apply vget_add_cost_0.
  - intros i. apply vget_add_cost_S.
Qed.

Lemma adds_trans (e1 e2 : R) (fg1 fg2 fg3 : vec) :
  adds e1 fg1 fg2 -> adds e2 fg2 fg3 -> adds (e1 + e2) fg1 fg3.
Proof.
  intros (L1 & V1 & K1) (L2 & V2 & K2). repeat split.
  - congruence.
  - rewrite V2, V1. ring.
  - intros i. now rewrite K2, K1.
Qed.

Lemma adds_for_loop (n : nat) (body : nat -> vec -> vec) (term : nat -> R) (fg : vec) :
  (forall t fg', (0 < length fg')%nat -> adds (term t) fg' (body t fg')) ->
  (0 < length fg)%nat ->
  adds (Spec.sum_below n term) fg (for_loop n body fg).
Proof.
  intros Hb Hfg. induction n as [|n IH]; simpl.
  - repeat split; auto. ring.
  - eapply adds_trans; [exact IH|]. apply Hb.
    destruct IH as (L & _). lia.
Qed.

Variable N : nat.

Lemma adds_cost_errors (vars : vec) (t : nat) (fg : vec) :
  (0 < length fg)%nat -> adds (errors_term N vars t) fg (cost_errors N vars t fg).
Proof.
  intros H. unfold cost_errors, errors_term.
  eapply adds_trans; [eapply adds_trans|]; apply adds_add_cost;
    rewrite ?length_add_cost; auto.
Qed.

Lemma adds_cost_actuators (vars : vec) (t : nat) (fg : vec) :
  (0 < length fg)%nat -> adds (actuators_term N vars t) fg (cost_actuators N vars t fg).
Proof.
  intros H. unfold cost_actuators, actuators_term.
  eapply adds_trans; apply adds_add_cost; rewrite ?length_add_cost; auto.
Qed.

Lemma adds_cost_changes (vars : vec) (t : nat) (fg : vec) :
  (0 < length fg)%nat -> adds (changes_term N vars t) fg (cost_changes N vars t fg).
Proof.
  intros H. unfold cost_changes, changes_term.
  eapply adds_trans; apply adds_add_cost; rewrite ?length_add_cost; auto.
Qed.

Lemma after_cost_adds (fg vars : vec) :
  (0 < length fg)%nat ->
  adds (Spec.sum_below N (errors_term N vars)
        + Spec.sum_below (N - 1) (actuators_term N vars)
        + Spec.sum_below (N - 2) (changes_term N vars))
       (vset fg 0 0) (after_cost N fg vars).
Proof.
  intros H. unfold after_cost.
  assert (H0 : (0 < length (vset fg 0 0%R))%nat) by now rewrite length_vset.
  pose proof (adds_for_loop N _ _ _ (adds_cost_errors vars) H0) as A1.
  assert (H1 : (0 < length (for_loop N (cost_errors N vars) (vset fg 0 0%R)))%nat)
    by (destruct A1 as (L & _); lia).
  pose proof (adds_for_loop (N - 1) _ _ _ (adds_cost_actuators vars) H1) as A2.
  assert (H2 : (0 < length (for_loop (N - 1) (cost_actuators N vars)
                   (for_loop N (cost_errors N vars) (vset fg 0 0%R))))%nat)
    by (destruct A2 as (L & _); lia).
  pose proof (adds_for_loop (N - 2) _ _ _ (adds_cost_changes vars) H2) as A3.
  eapply adds_trans; [eapply adds_trans|]; eassumption.
Qed.

(** The constraints are written at indices from [1] on. *)
Lemma model_constraints_keeps_0 (coeffs vars : vec) (t : nat) (fg : vec) :
  vget (model_constraints N coeffs vars t fg) 0 = vget fg 0.
Proof.
  unfold model_constraints; cbv zeta.
  repeat (rewrite vget_vset_neq; [|unfold epsi_start, cte_start, v_start,
                                    psi_start, y_start, x_start; lia]).
  reflexivity.
Qed.

Lemma FG_eval_unfold (coeffs fg vars : vec) :
  FG_eval N coeffs fg vars =
  for_loop (N - 2) (model_constraints N coeffs vars)
    (vset (vset (vset (vset (vset (vset (after_cost N fg vars)
       (x_start + 1) (vget vars x_start))
       (y_start N + 1) (vget vars (y_start N)))
       (psi_start N + 1) (vget vars (psi_start N)))
       (v_start N + 1) (vget vars (v_start N)))
       (cte_start N + 1) (vget vars (cte_start N)))
       (epsi_start N + 1) (vget vars (epsi_start N))).
Proof. reflexivity. Qed.

(** The first entry of [fg] after the call, in the indices of the source. *)
Lemma FG_eval_cost (coeffs fg vars : vec) :
  (0 < length fg)%nat ->
  vget (FG_eval N coeffs fg vars) 0 =
  Spec.sum_below N (errors_term N vars)
  + Spec.sum_below (N - 1) (actuators_term N vars)
  + Spec.sum_below (N - 2) (changes_term N vars).
Proof.
  intros H. rewrite FG_eval_unfold.
  apply (for_loop_invariant (fun fg' => vget fg' 0 = _)).
  - intros t s' _ Hs. now rewrite model_constraints_keeps_0.
  - repeat (rewrite vget_vset_neq; [|unfold epsi_start, cte_start, v_start,
                                      psi_start, y_start, x_start; lia]).
    destruct (after_cost_adds fg vars H) as (_ & V & _).
    rewrite V, vget_vset_eq by exact H. ring.
Qed.

End ObjectiveFacts.

(* ================================================================== *)
(** * Sums *)
(* ================================================================== *)

Section SumFacts.

Import Spec.
Local Open Scope R_scope.

Lemma sum_below_ext (n : nat) (f g : nat -> R) :
  (forall t, (t < n)%nat -> f t = g t) -> sum_below n f = sum_below n g.
Proof.
  induction n as [|n IH]; intros H; simpl; auto.
  rewrite IH, H by (intros; auto with arith); auto.
Qed.

Lemma sum_below_nonneg (n : nat) (f : nat -> R) :
  (forall t, (t < n)%nat -> 0 <= f t) -> 0 <= sum_below n f.
Proof.
  induction n as [|n IH]; intros H; simpl; [lra|].
  assert (0 <= sum_below n f) by (apply IH; intros; apply H; lia).
  assert (0 <= f n) by (apply H; lia). lra.
Qed.

Lemma sum_below_zero (n : nat) (f : nat -> R) :
  (forall t, (t < n)%nat -> 0 <= f t) ->
  sum_below n f = 0 <-> (forall t, (t < n)%nat -> f t = 0).
Proof.
  induction n as [|n IH]; intros H; simpl.
  - split; [intros _ t Ht; lia | auto].
  - assert (Hn : forall t, (t < n)%nat -> 0 <= f t) by (intros; apply H; lia).
    assert (0 <= sum_below n f) by (apply sum_below_nonneg; auto).
    assert (0 <= f n) by (apply H; lia).
    specialize (IH Hn). split.
    + intros E t Ht. assert (sum_below n f = 0) by lra.
      destruct (Nat.eq_dec t n) as [->|Hne]; [lra|].
      apply IH; auto; lia.
    + intros Z. rewrite Z by lia.
      assert (sum_below n f = 0) by (apply IH; intros; apply Z; lia). lra.
Qed.

End SumFacts.

(* ================================================================== *)
(** * C6, C10: the objective *)
(* ================================================================== *)

Section Objective.

Import MPC Aux.
Local Open Scope R_scope.

Variable N : nat.

Lemma starts :
  x_start = 0%nat /\ y_start N = N /\ psi_start N = (2 * N)%nat
  /\ v_start N = (3 * N)%nat /\ cte_start N = (4 * N)%nat
  /\ epsi_start N = (5 * N)%nat /\ delta_start N = (6 * N)%nat
  /\ a_start N = (6 * N + N - 1)%nat.
Proof.
  unfold a_start, delta_start, epsi_start, cte_start, v_start, psi_start,
    y_start, x_start. repeat split; lia.
Qed.

(** C6.  For every decision vector, the objective the evaluator leaves in
    [fg[0]] is the sum over [t = 0..N-1] of
    [1000*cte_t^2 + 1000*epsi_t^2 + 1*(v_t - 80)^2], plus the sum over
    [t = 0..N-2] of [100*delta_t^2 + 10*a_t^2], plus the sum over
    [t = 0..N-3] of [10*(delta_{t+1} - delta_t)^2 + 10*(a_{t+1} - a_t)^2],
    the entries being read in the layout of the decision vector: the weights
    are [w_cte = w_epsi = 1000], [w_dv = 1], [w_delta = 100], [w_a = 10],
    [w_ddelta = w_da = 10] and the reference speed is [80]. *)
Theorem FG_eval_objective (coeffs fg vars : vec) :
  (2 <= N)%nat ->
  length fg = S (n_constraints N) ->
  vget (FG_eval N coeffs fg vars) 0 = Spec.objective N vars.
Proof.
  intros HN Hfg. rewrite FG_eval_cost by lia.
  destruct starts as (Sx & Sy & Sp & Sv & Sc & Se & Sd & Sa).
  unfold Spec.objective. f_equal; [f_equal|]; apply sum_below_ext; intros t Ht.
  - unfold errors_term, Spec.cte_, Spec.epsi_, Spec.v_, w_cte, w_epsi, w_dv, ref_v.
    now rewrite Sc, Se, Sv.
  - unfold actuators_term, Spec.delta_, Spec.a_, w_delta, w_a.
    rewrite Sd, Sa. now replace (6 * N + N - 1 + t)%nat with (6 * N + (N - 1) + t)%nat by lia.
  - unfold changes_term, Spec.delta_, Spec.a_, w_ddelta, w_da.
    rewrite Sd, Sa.
    replace (6 * N + N - 1 + t + 1)%nat with (6 * N + (N - 1) + (t + 1))%nat by lia.
    replace (6 * N + N - 1 + t)%nat with (6 * N + (N - 1) + t)%nat by lia.
    now replace (6 * N + t + 1)%nat with (6 * N + (t + 1))%nat by lia.
Qed.




Lemma sqr_zero (r : R) : r ^ 2 = 0 -> r = 0.
Proof. intros H. apply Rsqr_eq_0. rewrite Rsqr_pow2. exact H. Qed.




End Objective.

(* ================================================================== *)
(** * C1: the constraints *)
(* ================================================================== *)

Section Constraints.

Import MPC Aux.
Local Open Scope R_scope.

Lemma vget_vset (v : vec) (i j : nat) (a : R) :
  vget (vset v i a) j = if ((i =? j) && (i <? length v))%nat then a else vget v j.
Proof.
  destruct (Nat.eqb_spec i j) as [->|Hne]; simpl.
  - destruct (Nat.ltb_spec j (length v)) as [Hlt|Hge].
    + now apply vget_vset_eq.
    + unfold vget. rewrite !nth_overflow; auto. now rewrite length_vset.
  - now apply vget_vset_neq.
Qed.

Lemma same_constraints_vset (fg fg' : vec) (i : nat) (a a' : R) :
  same_constraints fg fg' -> a = a' ->
  same_constraints (vset fg i a) (vset fg' i a').
Proof.
  intros (L & E) ->. split.
  - now rewrite !length_vset.
  - intros j Hj. rewrite !vget_vset, L, (E j Hj). reflexivity.
Qed.

Variable N : nat.
Hypothesis HN : (2 <= N)%nat.

Ltac starts_lia :=
  unfold last_state_index, a_start, delta_start, epsi_start, cte_start,
    v_start, psi_start, y_start, x_start in *; lia.

(** The last loop reads the decision vector outside the last state only. *)
Lemma model_constraints_same (coeffs vars vars' : vec) (t : nat) (fg fg' : vec) :
  (forall i, ~ last_state_index N i -> vget vars i = vget vars' i) ->
  (t < N - 2)%nat ->
  same_constraints fg fg' ->
  same_constraints (model_constraints N coeffs vars t fg)
                   (model_constraints N coeffs vars' t fg').
Proof.
  intros Hv Ht Hs. unfold model_constraints; cbv zeta.
  repeat (rewrite <- (Hv (_ + t)%nat) by starts_lia).
  repeat (rewrite <- (Hv (_ + t + 1)%nat) by starts_lia).
  repeat apply same_constraints_vset; auto.
Qed.

Lemma after_cost_same (fg vars vars' : vec) :
  (0 < length fg)%nat ->
  same_constraints (after_cost N fg vars) (after_cost N fg vars').
Proof.
  intros H.
  destruct (after_cost_adds N fg vars H) as (L & _ & K).
  destruct (after_cost_adds N fg vars' H) as (L' & _ & K').
  split; [congruence|].
  intros [|i] Hi; [lia|]. now rewrite K, K'.
Qed.

Lemma FG_eval_same (coeffs fg vars vars' : vec) :
  (0 < length fg)%nat ->
  (forall i, ~ last_state_index N i -> vget vars i = vget vars' i) ->
  same_constraints (FG_eval N coeffs fg vars) (FG_eval N coeffs fg vars').
Proof.
  intros Hfg Hv. rewrite !FG_eval_unfold.
  apply for_loop_related.
  - intros t u u' Ht Hu. now apply model_constraints_same.
  - repeat apply same_constraints_vset;
      [now apply after_cost_same | apply Hv; starts_lia ..].
Qed.

(** The entries of [fg] after the block of each state component are
    assigned nowhere. *)
Lemma FG_eval_keeps (coeffs fg vars : vec) (i : nat) :
  (0 < length fg)%nat ->
  last_state_index N i ->
  vget (FG_eval N coeffs fg vars) (S i) = vget fg (S i).
Proof.
  intros Hfg Hi. rewrite FG_eval_unfold.
  apply (for_loop_invariant (fun fg' => vget fg' (S i) = _)).
  - intros t s' Ht Hs. unfold model_constraints; cbv zeta.
    repeat (rewrite vget_vset_neq by starts_lia). exact Hs.
  - repeat (rewrite vget_vset_neq by starts_lia).
    destruct (after_cost_adds N fg vars Hfg) as (_ & _ & K).
    rewrite K. now rewrite vget_vset_neq.
Qed.

Lemma length_model_constraints (coeffs vars : vec) (t : nat) (fg : vec) :
  length (model_constraints N coeffs vars t fg) = length fg.
Proof. unfold model_constraints; cbv zeta. now rewrite !length_vset. Qed.

(** The last loop after [n] iterations: the residuals of the steps before
    [n] stand in [fg], each at its place. *)
Lemma model_constraints_loop (coeffs vars fg : vec) (n : nat) :
  (n <= N - 2)%nat ->
  length fg = S (n_constraints N) ->
  length (for_loop n (model_constraints N coeffs vars) fg) = length fg
  /\ forall k t, (k < 6)%nat -> (t < n)%nat ->
       vget (for_loop n (model_constraints N coeffs vars) fg) (block_start N k + t + 2)
       = model_residual N coeffs vars k t.
Proof.
  intros Hn Hfg. induction n as [|n IH]; cbn [for_loop].
  - split; [reflexivity | intros; lia].
  - destruct IH as (L & V); [lia|].
    split; [now rewrite length_model_constraints|].
    intros k t Hk Ht.
    assert (Hl : length (for_loop n (model_constraints N coeffs vars) fg)
                 = S (N * 6)) by (rewrite L, Hfg; reflexivity).
    set (fg' := for_loop n (model_constraints N coeffs vars) fg) in *.
    clearbody fg'.
    destruct (Nat.eq_dec t n) as [->|Hne].
    + unfold model_constraints; cbv zeta.
      destruct k as [|[|[|[|[|[|k]]]]]]; try lia;
        unfold block_start, model_residual; cbv zeta;
        repeat (rewrite vget_vset_neq by starts_lia);
        (rewrite vget_vset_eq by (rewrite ?length_vset, Hl; starts_lia));
        reflexivity.
    + rewrite <- (V k t Hk) by lia.
      unfold model_constraints; cbv zeta.
      destruct k as [|[|[|[|[|[|k]]]]]]; try lia; unfold block_start;
        repeat (rewrite vget_vset_neq by starts_lia); reflexivity.
Qed.

(** The entries of [fg] the evaluator assigns from index [1] on: the
    state of time [0], and the residuals of the steps [0 .. N-3]. *)
Lemma FG_eval_assigns (coeffs fg vars : vec) :
  length fg = S (n_constraints N) ->
  (forall k, (k < 6)%nat ->
     vget (FG_eval N coeffs fg vars) (block_start N k + 1) = vget vars (block_start N k))
  /\ (forall k t, (k < 6)%nat -> (t < N - 2)%nat ->
       vget (FG_eval N coeffs fg vars) (block_start N k + t + 2)
       = model_residual N coeffs vars k t).
Proof.
  intros Hfg. rewrite FG_eval_unfold.
  destruct (after_cost_adds N fg vars ltac:(lia)) as (La & _ & _).
  rewrite length_vset in La.
  assert (Hl : length (after_cost N fg vars) = S (N * 6)) by (rewrite La; exact Hfg).
  split.
  - intros k Hk.
    apply (for_loop_invariant (fun fg' => vget fg' (block_start N k + 1) = _)).
    + intros t s' Ht Hs. unfold model_constraints; cbv zeta.
      destruct k as [|[|[|[|[|[|k]]]]]]; try lia; unfold block_start in *;
        repeat (rewrite vget_vset_neq by starts_lia); exact Hs.
    + destruct k as [|[|[|[|[|[|k]]]]]]; try lia; unfold block_start;
        repeat (rewrite vget_vset_neq by starts_lia);
        (rewrite vget_vset_eq by (rewrite ?length_vset, Hl; starts_lia));
        reflexivity.
  - apply model_constraints_loop; [lia|].
    rewrite !length_vset. exact Hl.
Qed.

End Constraints.

(** C1.  What the evaluator does where the claim fails.  For a horizon
    [N >= 2], of the [6N] constraint entries of [fg] it assigns the six of
    the state of time [0] and the six residuals of each step
    [t = 0 .. N-3], that is [6(N-2)] residuals; the six entries where the
    residuals of the step [t = N-2] would stand keep the value they had
    before the call; and the constraint entries are the same for two
    decision vectors that differ in the last state only, so nothing links
    the state of time [N - 2] to the state of time [N - 1]. *)
Theorem FG_eval_last_step_not_constrained (N : nat) (coeffs fg vars vars' : vec) :
  (2 <= N)%nat ->
  length fg = S (MPC.n_constraints N) ->
  (forall i, ~ Aux.last_state_index N i -> vget vars i = vget vars' i) ->
  (forall k, (k < 6)%nat ->
     vget (MPC.FG_eval N coeffs fg vars) (Aux.block_start N k + 1)
     = vget vars (Aux.block_start N k))
  /\ (forall k t, (k < 6)%nat -> (t < N - 2)%nat ->
     vget (MPC.FG_eval N coeffs fg vars) (Aux.block_start N k + t + 2)
     = Aux.model_residual N coeffs vars k t)
  /\ (forall i, Aux.last_state_index N i ->
     vget (MPC.FG_eval N coeffs fg vars) (S i) = vget fg (S i))
  /\ (forall i, (1 <= i)%nat ->
     vget (MPC.FG_eval N coeffs fg vars) i = vget (MPC.FG_eval N coeffs fg vars') i).
Proof.
  intros HN Hfg Hv.
  destruct (FG_eval_assigns N HN coeffs fg vars Hfg) as (Pins & Res).
  split; [exact Pins|]. split; [exact Res|]. split.
  - intros i Hi. apply FG_eval_keeps; auto; lia.
  - apply FG_eval_same; auto; lia.
Qed.

(* ================================================================== *)
(** * C2, C3: what MPC::Solve returns *)
(* ================================================================== *)

Section SolveOutput.

Import MPC Aux.
Local Open Scope R_scope.

Lemma pairs_loop (n : nat) (f g : nat -> R) (init : vec) :
  for_loop n (fun i result => push_back (push_back result (f i)) (g i)) init
  = init ++ flat_map (fun t => [f t; g t]) (seq 0 n).
Proof.
  induction n as [|n IH]; cbn [for_loop].
  - simpl. now rewrite app_nil_r.
  - rewrite IH, seq_S, flat_map_app. unfold push_back. simpl.
    now rewrite <- !app_assoc.
Qed.

Lemma Solve_output_pairs (N : nat) (sol : vec) :
  Solve_output N sol
  = [vget sol (delta_start N); vget sol (a_start N)]
    ++ flat_map (fun t => [position_x sol t; position_y N sol t]) (seq 0 (N - 1)).
Proof. unfold Solve_output. cbv zeta. now rewrite pairs_loop. Qed.

Lemma length_pairs (f g : nat -> R) (s n : nat) :
  length (flat_map (fun t => [f t; g t]) (seq s n)) = (2 * n)%nat.
Proof.
  revert s; induction n as [|n IH]; intros s; simpl; auto.
  rewrite IH. lia.
Qed.

Lemma nth_pairs (f g : nat -> R) (s n t : nat) :
  (t < n)%nat ->
  nth (2 * t) (flat_map (fun t => [f t; g t]) (seq s n)) 0 = f (s + t)%nat
  /\ nth (2 * t + 1) (flat_map (fun t => [f t; g t]) (seq s n)) 0 = g (s + t)%nat.
Proof.
  revert s t; induction n as [|n IH]; intros s t Ht; [lia|].
  destruct t as [|t].
  - simpl. rewrite Nat.add_0_r. auto.
  - replace (2 * S t)%nat with (S (S (2 * t))) by lia.
    replace (S (S (2 * t)) + 1)%nat with (S (S (2 * t + 1))) by lia.
    cbn [seq flat_map app nth].
    destruct (IH (S s) t) as (A & B); [lia|].
    rewrite A, B. replace (S s + t)%nat with (s + S t)%nat by lia. auto.
Qed.

(** The display loop of the handler splits the entries after the first two
    by the parity of their index. *)
Lemma predicted_line_split (vars : vec) (m : nat) :
  for_loop (2 * m)
    (fun k (p : vec * vec) =>
       if ((2 + k) mod 2 =? 0)%nat
       then (push_back (fst p) (vget vars (2 + k)), snd p)
       else (fst p, push_back (snd p) (vget vars (2 + k))))
    ([], [])
  = (map (fun t => vget vars (2 + 2 * t)) (seq 0 m),
     map (fun t => vget vars (2 + (2 * t + 1))) (seq 0 m)).
Proof.
  induction m as [|m IH]; [reflexivity|].
  replace (2 * S m)%nat with (S (S (2 * m))) by lia.
  cbn [for_loop]. rewrite IH. cbn [fst snd].
  replace ((2 + S (2 * m)) mod 2)%nat with 1%nat.
  2:{ replace (2 + S (2 * m))%nat with (1 + (1 + m) * 2)%nat by lia.
      now rewrite Nat.Div0.mod_add. }
  replace ((2 + 2 * m) mod 2)%nat with 0%nat.
  2:{ replace (2 + 2 * m)%nat with (0 + (1 + m) * 2)%nat by lia.
      now rewrite Nat.Div0.mod_add. }
  cbn [Nat.eqb fst snd]. rewrite !seq_S, !map_app. unfold push_back. simpl.
  repeat f_equal; lia.
Qed.

Lemma predicted_line_pairs (d a : R) (f g : nat -> R) (n : nat) :
  Main.predicted_line ([d; a] ++ flat_map (fun t => [f t; g t]) (seq 0 n))
  = (map f (seq 0 n), map g (seq 0 n)).
Proof.
  unfold Main.predicted_line, for_range.
  rewrite length_app, length_pairs. simpl length.
  replace (2 + 2 * n - 2)%nat with (2 * n)%nat by lia.
  rewrite predicted_line_split. f_equal; apply map_ext_in; intros t Ht;
    apply in_seq in Ht; unfold vget;
    destruct (nth_pairs f g 0 n t) as (A & B); try lia.
  - change (nth (2 + 2 * t) ([d; a] ++ ?l) 0) with (nth (2 * t) l 0). now rewrite A.
  - change (nth (2 + (2 * t + 1)) ([d; a] ++ ?l) 0) with (nth (2 * t + 1) l 0).
    now rewrite B.
Qed.

End SolveOutput.

(** C3, as the code has it.  The vector [MPC::Solve] returns holds the
    first actuation pair [(delta_0, a_0)] of the solver's decision vector and
    then its positions [(x_t, y_t)] for [t = 0 .. N-2], in this order: [N - 1]
    pairs, which the handler splits into the [N - 1] abscissas and the
    [N - 1] ordinates of the predicted trajectory.  The index [2] of the
    handler's loop counts the entries of the returned vector, not the time
    steps. *)
Theorem Solve_returns_positions_from_0
        (N : nat) (ipopt_solve : MPC.problem -> MPC.solve_result) (state coeffs : vec) :
  (1 <= N)%nat ->
  let sol := MPC.x (ipopt_solve (MPC.Solve_problem N state coeffs)) in
  let vars := MPC.Solve N ipopt_solve state coeffs in
  vars = [vget sol (MPC.delta_start N); vget sol (MPC.a_start N)]
         ++ flat_map (fun t => [Aux.position_x sol t; Aux.position_y N sol t])
                     (seq 0 (N - 1))
  /\ Main.predicted_line vars
     = (map (Aux.position_x sol) (seq 0 (N - 1)),
        map (Aux.position_y N sol) (seq 0 (N - 1)))
  /\ length (fst (Main.predicted_line vars)) = (N - 1)%nat
  /\ length (snd (Main.predicted_line vars)) = (N - 1)%nat.
Proof.
  intros HN sol vars.
  assert (E : vars = [vget sol (MPC.delta_start N); vget sol (MPC.a_start N)]
         ++ flat_map (fun t => [Aux.position_x sol t; Aux.position_y N sol t])
                     (seq 0 (N - 1))).
  { unfold vars, MPC.Solve. cbv zeta. apply Solve_output_pairs. }
  split; [exact E|].
  assert (P : Main.predicted_line vars
     = (map (Aux.position_x sol) (seq 0 (N - 1)),
        map (Aux.position_y N sol) (seq 0 (N - 1)))).
  { rewrite E. apply predicted_line_pairs. }
  split; [exact P|]. rewrite P. simpl.
  now rewrite !length_map, !length_seq.
Qed.

(** C3, the claim as it is worded, fails: for [N = 15] and a decision vector
    that is zero but for [x_0 = 1], the third entry of the returned vector,
    the first abscissa of the trajectory, is [x_0 = 1], which is none of
    the positions of the times [t >= 2], all zero. *)
Lemma Solve_positions_not_from_2 :
  let sol := Examples.only_x0 in
  let vars := MPC.Solve 15 (Examples.stops_at MPC.success sol) (vnew 6) (vnew 4) in
  vars <> Spec.claimed_Solve_output 15 sol
  /\ vget vars 2 = 1%R
  /\ (forall t, (2 <= t)%nat -> Spec.x_ sol t = 0%R /\ Spec.y_ 15 sol t = 0%R).
Proof.
  cbv zeta.
  assert (E : vget (MPC.Solve 15 (Examples.stops_at MPC.success Examples.only_x0)
                      (vnew 6) (vnew 4)) 2 = 1%R).
  { unfold MPC.Solve. cbv zeta. rewrite Solve_output_pairs.
    unfold Examples.stops_at. cbn [MPC.x]. unfold Examples.only_x0. cbn. reflexivity. }
  split; [|split].
  - intros H. rewrite H in E.
    unfold Spec.claimed_Solve_output, Examples.only_x0 in E. cbn in E. lra.
  - exact E.
  - intros t Ht. unfold Spec.x_, Spec.y_, Examples.only_x0.
    rewrite !vget_vset_neq, !vget_vnew by lia. auto.
Qed.

Lemma Solve_returns_positions_from_0_witness :
  Main.predicted_line
    (MPC.Solve 15 (Examples.stops_at MPC.success Examples.only_x0) (vnew 6) (vnew 4))
  = (map (Aux.position_x Examples.only_x0) (seq 0 14),
     map (Aux.position_y 15 Examples.only_x0) (seq 0 14)).
Proof.
  apply (Solve_returns_positions_from_0 15
           (Examples.stops_at MPC.success Examples.only_x0) (vnew 6) (vnew 4)).
  lia.
Defined.

(** C2, as the code has it.  [MPC::Solve] compares the status of the solve
    with [success] in its local flag [ok], and the flag goes nowhere: the
    vector it returns, and so the reply of the handler, is built from the
    solver's decision vector in the same way whatever the status, so two
    solvers that stop at the same decision vectors give the same command. *)
Theorem Solve_same_whatever_the_status
        (N : nat) (ipopt_solve ipopt_solve' : MPC.problem -> MPC.solve_result) :
  (forall p, MPC.x (ipopt_solve p) = MPC.x (ipopt_solve' p)) ->
  (forall state coeffs,
     MPC.Solve N ipopt_solve state coeffs = MPC.Solve N ipopt_solve' state coeffs
     /\ (MPC.Solve_ok N ipopt_solve state coeffs = true <->
         MPC.status (ipopt_solve (MPC.Solve_problem N state coeffs)) = MPC.success))
  /\ (forall householderQr_solve j,
       Main.on_telemetry N householderQr_solve ipopt_solve j
       = Main.on_telemetry N householderQr_solve ipopt_solve' j).
Proof.
  intros Hx.
  assert (HS : forall state coeffs,
     MPC.Solve N ipopt_solve state coeffs = MPC.Solve N ipopt_solve' state coeffs).
  { intros state coeffs. unfold MPC.Solve. cbv zeta. now rewrite Hx. }
  split.
  - intros state coeffs. split; [apply HS|].
    unfold MPC.Solve_ok. cbv zeta.
    destruct (MPC.status _); simpl; split; congruence.
  - intros qr j. unfold Main.on_telemetry.
    destruct (Main.solve_arguments qr j) as [e|[state coeffs]]; simpl; auto.
    now rewrite HS.
Qed.

Lemma Solve_same_whatever_the_status_witness :
  Main.on_telemetry 15 Examples.fit_zero
    (Examples.stops_at MPC.success Examples.full_throttle) Examples.on_the_axis
  = Main.on_telemetry 15 Examples.fit_zero
      (Examples.stops_at MPC.SolverTimeout Examples.full_throttle) Examples.on_the_axis.
Proof.
  apply (Solve_same_whatever_the_status 15
           (Examples.stops_at MPC.success Examples.full_throttle)
           (Examples.stops_at MPC.SolverTimeout Examples.full_throttle)).
  intros p. reflexivity.
Defined.

(** C2, the claim as it is worded, fails: the solver times out at a
    decision vector with [delta_0 = 0.3] and [a_0 = 1] while the previous
    command was zero steering and zero throttle, and the handler replies
    with the steering [-0.3] and the throttle [1] of that vector, which is
    neither the previous command nor zero steering with a decelerating
    throttle. *)
Lemma timed_out_solve_is_emitted :
  exists m,
    Main.on_telemetry 15 Examples.fit_zero
      (Examples.stops_at MPC.SolverTimeout Examples.full_throttle)
      Examples.on_the_axis = inr m
    /\ MPC.status (Examples.stops_at MPC.SolverTimeout Examples.full_throttle
                    (MPC.Solve_problem 15 (vnew 6) (vnew 4))) <> MPC.success
    /\ Main.msg_steering_angle m = (- 0.3)%R
    /\ Main.msg_throttle m = 1%R
    /\ ~ Spec.safe_default (Main.steering_angle Examples.on_the_axis)
                           (Main.throttle Examples.on_the_axis) m.
Proof.
  eexists. split; [|split; [|split; [|split]]].
  - unfold Main.on_telemetry, Main.solve_arguments, Main.polyfit.
    cbn. reflexivity.
  - discriminate.
  - cbn [Main.msg_steering_angle]. lra.
  - reflexivity.
  - unfold Spec.safe_default. cbn [Main.msg_steering_angle Main.msg_throttle
      Main.steering_angle Main.throttle Examples.on_the_axis].
    intros [[H _]|[H _]]; lra.
Qed.

(* ================================================================== *)
(** * C7: the bounds of the variables *)
(* ================================================================== *)

Section Bounds.

Import MPC.
Local Open Scope R_scope.

(** A loop that writes one lower and one upper bound over a range of
    indices. *)
Lemma fill_range (lo hi : nat) (l u : R) (b : vec * vec) :
  let b' := for_range lo hi (fun i b => (vset (fst b) i l, vset (snd b) i u)) b in
  (length (fst b') = length (fst b) /\ length (snd b') = length (snd b))
  /\ (forall j, (lo <= j < hi)%nat ->
        ((j < length (fst b))%nat -> vget (fst b') j = l)
        /\ ((j < length (snd b))%nat -> vget (snd b') j = u))
  /\ (forall j, (j < lo \/ hi <= j)%nat ->
        vget (fst b') j = vget (fst b) j /\ vget (snd b') j = vget (snd b) j).
Proof.
  unfold for_range. cbv zeta.
  assert (G : forall n,
    let b' := for_loop n (fun k b => (vset (fst b) (lo + k) l, vset (snd b) (lo + k) u)) b in
    (length (fst b') = length (fst b) /\ length (snd b') = length (snd b))
    /\ (forall j, (lo <= j < lo + n)%nat ->
          ((j < length (fst b))%nat -> vget (fst b') j = l)
          /\ ((j < length (snd b))%nat -> vget (snd b') j = u))
    /\ (forall j, (j < lo \/ lo + n <= j)%nat ->
          vget (fst b') j = vget (fst b) j /\ vget (snd b') j = vget (snd b) j)).
  { induction n as [|n IH]; cbv zeta in *; cbn [for_loop].
    - repeat split; auto; lia.
    - destruct IH as ((L1 & L2) & Hin & Hout). cbn [fst snd].
      split; [split; rewrite length_vset; auto|]. split.
      + intros j Hj. rewrite !vget_vset, L1, L2.
        destruct (Nat.eqb_spec (lo + n) j) as [E|NE]; cbn [andb].
        * subst j. split; intros Hl; apply Nat.ltb_lt in Hl; now rewrite Hl.
        * apply Hin. lia.
      + intros j Hj. rewrite !vget_vset.
        destruct (Nat.eqb_spec (lo + n) j) as [E|NE]; cbn [andb]; [lia|].
        apply Hout. lia. }
  destruct (Nat.le_gt_cases lo hi) as [Hle|Hgt].
  - specialize (G (hi - lo)%nat). cbv zeta in G.
    replace (lo + (hi - lo))%nat with hi in G by lia. exact G.
  - replace (hi - lo)%nat with 0%nat by lia. cbn [for_loop].
    repeat split; auto; lia.
Qed.

Variable N : nat.
Hypothesis HN : (2 <= N)%nat.

Lemma Solve_problem_bounds (state coeffs : vec) :
  let P := Solve_problem N state coeffs in
  (length (xl P) = n_vars N /\ length (xu P) = n_vars N)
  /\ (forall i, (i < delta_start N)%nat ->
        vget (xl P) i = -1.0e19 /\ vget (xu P) i = 1.0e19)
  /\ (forall t, (t < N - 1)%nat ->
        vget (xl P) (delta_start N + t) = -0.436332
        /\ vget (xu P) (delta_start N + t) = 0.436332)
  /\ (forall t, (t < N - 1)%nat ->
        vget (xl P) (a_start N + t) = -1.0 /\ vget (xu P) (a_start N + t) = 1.0).
Proof.
  intros P. unfold P, Solve_problem. cbv zeta. cbn [xl xu].
  set (b0 := (vnew (n_vars N), vnew (n_vars N))).
  match goal with |- context [for_range 0 (delta_start N) ?f b0] =>
    set (b1 := for_range 0 (delta_start N) f b0) end.
  match goal with |- context [for_range (delta_start N) (a_start N) ?f b1] =>
    set (b2 := for_range (delta_start N) (a_start N) f b1) end.
  match goal with |- context [for_range (a_start N) (n_vars N) ?f b2] =>
    set (b3 := for_range (a_start N) (n_vars N) f b2) end.
  destruct (fill_range 0 (delta_start N) (-1.0e19) 1.0e19 b0)
    as ((L1 & U1) & In1 & Out1). fold b1 in L1, U1, In1, Out1.
  destruct (fill_range (delta_start N) (a_start N) (-0.436332) 0.436332 b1)
    as ((L2 & U2) & In2 & Out2). fold b2 in L2, U2, In2, Out2.
  destruct (fill_range (a_start N) (n_vars N) (-1.0) 1.0 b2)
    as ((L3 & U3) & In3 & Out3). fold b3 in L3, U3, In3, Out3.
  assert (L0 : length (fst b0) = n_vars N) by apply length_vnew.
  assert (U0 : length (snd b0) = n_vars N) by apply length_vnew.
  assert (Sd : delta_start N = (6 * N)%nat)
    by (unfold delta_start, epsi_start, cte_start, v_start, psi_start, y_start, x_start; lia).
  assert (Sa : a_start N = (7 * N - 1)%nat) by (unfold a_start; lia).
  assert (Sn : n_vars N = (8 * N - 2)%nat) by (unfold n_vars; lia).
  unfold vec in *.
  split; [split; [rewrite L3, L2, L1 | rewrite U3, U2, U1]; assumption|].
  split; [|split].
  - intros i Hi.
    destruct (Out3 i) as (-> & ->); [lia|].
    destruct (Out2 i) as (-> & ->); [lia|].
    destruct (In1 i) as (A & B); [lia|].
    split; [apply A; rewrite L0 | apply B; rewrite U0]; lia.
  - intros t Ht.
    destruct (Out3 (delta_start N + t)%nat) as (-> & ->); [lia|].
    destruct (In2 (delta_start N + t)%nat) as (A & B); [lia|].
    split; [apply A; rewrite L1, L0 | apply B; rewrite U1, U0]; lia.
  - intros t Ht.
    destruct (In3 (a_start N + t)%nat) as (A & B); [lia|].
    split; [apply A; rewrite L2, L1, L0 | apply B; rewrite U2, U1, U0]; lia.
Qed.

End Bounds.

(** C7.  In the problem handed to the solver (for a horizon [N >= 2]) every
    state variable has the bounds [-1.0e19] and [1.0e19], every steering
    variable [delta_t] the bounds [-0.436332] and [0.436332], every
    acceleration variable [a_t] the bounds [-1] and [1]; consequently, when
    the decision vector the solver stops at is within the bounds it was
    given, every steering entry of it is at most [0.436332] and every
    acceleration entry at most [1] in absolute value, and so are the
    steering and the acceleration [MPC::Solve] returns. *)
Theorem Solve_bounds_of_the_variables
        (N : nat) (ipopt_solve : MPC.problem -> MPC.solve_result) (state coeffs : vec) :
  (2 <= N)%nat ->
  let P := MPC.Solve_problem N state coeffs in
  let sol := MPC.x (ipopt_solve P) in
  let vars := MPC.Solve N ipopt_solve state coeffs in
  (length (MPC.xl P) = MPC.n_vars N /\ length (MPC.xu P) = MPC.n_vars N)
  /\ (forall i, (i < MPC.delta_start N)%nat ->
        vget (MPC.xl P) i = (-1.0e19)%R /\ vget (MPC.xu P) i = 1.0e19%R)
  /\ (forall t, (t < N - 1)%nat ->
        vget (MPC.xl P) (MPC.delta_start N + t) = (-0.436332)%R
        /\ vget (MPC.xu P) (MPC.delta_start N + t) = 0.436332%R)
  /\ (forall t, (t < N - 1)%nat ->
        vget (MPC.xl P) (MPC.a_start N + t) = (-1)%R
        /\ vget (MPC.xu P) (MPC.a_start N + t) = 1%R)
  /\ ((forall i, (i < MPC.n_vars N)%nat ->
         (vget (MPC.xl P) i <= vget sol i <= vget (MPC.xu P) i)%R) ->
      (forall t, (t < N - 1)%nat ->
         (Rabs (vget sol (MPC.delta_start N + t)) <= 0.436332)%R
         /\ (Rabs (vget sol (MPC.a_start N + t)) <= 1)%R)
      /\ (Rabs (vget vars 0) <= 0.436332)%R
      /\ (Rabs (vget vars 1) <= 1)%R).
Proof.
  intros HN P sol vars.
  destruct (Solve_problem_bounds N HN state coeffs) as (L & Hs & Hd & Ha).
  fold P in L, Hs, Hd, Ha.
  split; [exact L|]. split; [exact Hs|]. split; [exact Hd|]. split.
  { intros t Ht. destruct (Ha t Ht) as (A & B). split; lra. }
  intros Hin.
  assert (C : forall t, (t < N - 1)%nat ->
         (Rabs (vget sol (MPC.delta_start N + t)) <= 0.436332)%R
         /\ (Rabs (vget sol (MPC.a_start N + t)) <= 1)%R).
  { intros t Ht.
    assert (Sd : MPC.delta_start N = (6 * N)%nat)
      by (unfold MPC.delta_start, MPC.epsi_start, MPC.cte_start, MPC.v_start,
            MPC.psi_start, MPC.y_start, MPC.x_start; lia).
    assert (Sa : MPC.a_start N = (7 * N - 1)%nat) by (unfold MPC.a_start; lia).
    assert (Sn : MPC.n_vars N = (8 * N - 2)%nat) by (unfold MPC.n_vars; lia).
    destruct (Hd t Ht) as (D1 & D2). destruct (Ha t Ht) as (A1 & A2).
    pose proof (Hin (MPC.delta_start N + t)%nat ltac:(lia)) as B1.
    pose proof (Hin (MPC.a_start N + t)%nat ltac:(lia)) as B2.
    rewrite D1, D2 in B1. rewrite A1, A2 in B2.
    split; apply Rabs_le; lra. }
  split; [exact C|].
  unfold vars, MPC.Solve. cbv zeta. rewrite Solve_output_pairs. fold P sol.
  cbn [app vget nth].
  destruct (C 0%nat ltac:(lia)) as (C1 & C2).
  rewrite !Nat.add_0_r in C1, C2. split; assumption.
Qed.

(* ================================================================== *)
(** * C5, C8: the latency adjustment and the sign of the steering *)
(* ================================================================== *)

Section Latency.

Import Main.
Local Open Scope R_scope.

Lemma latency_state_adjusted (coeffs : vec) (v delta a : R) :
  latency_state coeffs v delta a
  = [0 + v * cos delta * dt_lat; 0 + v * sin delta * dt_lat;
     0 + v * delta / Lf * dt_lat; v + a * dt_lat;
     polyeval coeffs 0 + v * sin delta * dt_lat;
     atan (vget coeffs 1) + v * delta / Lf * dt_lat].
Proof.
  unfold latency_state. cbv zeta.
  destruct (Rlt_dec 0 dt_lat) as [_|H]; [reflexivity|].
  exfalso. apply H. unfold dt_lat. lra.
Qed.

Lemma adjust_steering_opp (delta : R) : adjust_steering delta = - delta.
Proof. unfold adjust_steering. ring. Qed.

Lemma solve_arguments_inr (qr : matrix -> vec -> vec) (j : telemetry) (state coeffs : vec) :
  solve_arguments qr j = inr (state, coeffs) ->
  state = latency_state coeffs (speed j) (- steering_angle j) (throttle j).
Proof.
  unfold solve_arguments. cbv zeta. rewrite adjust_steering_opp.
  destruct (polyfit qr _ _ 3) as [e|c]; cbn [bind ret]; [discriminate|].
  intros H. injection H as <- <-. reflexivity.
Qed.

End Latency.

(** C5, as the code has it.  The state the handler passes to the solver is
    [x0 = v*cos(delta)*dt_lat], [y0 = v*sin(delta)*dt_lat],
    [psi0 = v*delta/Lf*dt_lat], [v0 = v + a*dt_lat],
    [cte0 = polyeval(coeffs, 0) + v*sin(delta)*dt_lat] and
    [epsi0 = atan(coeffs[1]) + v*delta/Lf*dt_lat], where [v] and [a] are the
    speed and the throttle received and [delta] is the steering angle
    received with its sign changed: the position is moved along the
    direction [delta], not along the heading [psi = 0]. *)
Theorem latency_state_of_the_handler
        (householderQr_solve : Main.matrix -> vec -> vec) (j : Main.telemetry)
        (state coeffs : vec) :
  Main.solve_arguments householderQr_solve j = inr (state, coeffs) ->
  let v := Main.speed j in
  let a := Main.throttle j in
  let delta := (- Main.steering_angle j)%R in
  (state = [v * cos delta * Main.dt_lat; v * sin delta * Main.dt_lat;
            v * delta / Main.Lf * Main.dt_lat; v + a * Main.dt_lat;
            Main.polyeval coeffs 0 + v * sin delta * Main.dt_lat;
            atan (vget coeffs 1) + v * delta / Main.Lf * Main.dt_lat])%R.
Proof.
  intros H v a delta. apply solve_arguments_inr in H. subst state.
  rewrite latency_state_adjusted. fold v a delta.
  repeat (f_equal; try ring).
Qed.

Lemma latency_state_of_the_handler_witness :
  let j := Examples.turning in
  exists state,
    Main.solve_arguments Examples.fit_zero j = inr (state, [0; 0; 0; 0]%R)
    /\ (state =
        [Main.speed j * cos (- Main.steering_angle j) * Main.dt_lat;
         Main.speed j * sin (- Main.steering_angle j) * Main.dt_lat;
         Main.speed j * (- Main.steering_angle j) / Main.Lf * Main.dt_lat;
         Main.speed j + Main.throttle j * Main.dt_lat;
         Main.polyeval [0; 0; 0; 0] 0
         + Main.speed j * sin (- Main.steering_angle j) * Main.dt_lat;
         atan (vget [0; 0; 0; 0] 1)
         + Main.speed j * (- Main.steering_angle j) / Main.Lf * Main.dt_lat])%R.
Proof.
  intros j. eexists. split.
  - unfold Main.solve_arguments, Main.polyfit. cbn. reflexivity.
  - apply (latency_state_of_the_handler Examples.fit_zero j).
    unfold Main.solve_arguments, Main.polyfit. cbn. reflexivity.
Defined.

(** C5, the claim as it is worded, fails: at speed [1] with the steering
    [delta = 0.4] and no throttle, the handler puts the car at
    [y0 = sin(0.4) * 0.1 > 0], where the relations of the dynamics
    constraints, from the heading [psi = 0], keep it at [y0 = 0]. *)
Lemma latency_state_is_not_the_bicycle_step :
  Main.latency_state (vnew 4) 1 0.4 0 <> Spec.claimed_latency_state (vnew 4) 1 0.4 0
  /\ (0 < vget (Main.latency_state (vnew 4) 1 0.4 0) 1)%R
  /\ vget (Spec.claimed_latency_state (vnew 4) 1 0.4 0) 1 = 0%R.
Proof.
  assert (S4 : (0 < sin 0.4)%R).
  { apply sin_gt_0; [lra|]. pose proof PI2_1. lra. }
  assert (A : (0 < vget (Main.latency_state (vnew 4) 1 0.4 0) 1)%R).
  { rewrite latency_state_adjusted. cbn [vget nth]. unfold Main.dt_lat. lra. }
  assert (B : vget (Spec.claimed_latency_state (vnew 4) 1 0.4 0) 1 = 0%R).
  { unfold Spec.claimed_latency_state, Spec.bicycle. cbn [vget nth app].
    rewrite sin_0. ring. }
  split; [|split; assumption].
  intros H. rewrite H in A. lra.
Qed.

(** C8, as the code has it.  The sign of the steering is changed at two
    places of the handler: the steering angle received is negated before
    the latency adjustment uses it, and the first steering command of the
    optimizer is negated, once, to give the steering angle sent. *)
Theorem steering_sign_changed_in_and_out
        (N : nat) (householderQr_solve : Main.matrix -> vec -> vec)
        (ipopt_solve : MPC.problem -> MPC.solve_result)
        (j : Main.telemetry) (m : Main.steer) :
  Main.on_telemetry N householderQr_solve ipopt_solve j = inr m ->
  exists state coeffs,
    Main.solve_arguments householderQr_solve j = inr (state, coeffs)
    /\ state = Main.latency_state coeffs (Main.speed j)
                                  (- Main.steering_angle j) (Main.throttle j)
    /\ Main.msg_steering_angle m
       = (- vget (MPC.x (ipopt_solve (MPC.Solve_problem N state coeffs)))
                 (MPC.delta_start N))%R.
Proof.
  unfold Main.on_telemetry.
  destruct (Main.solve_arguments householderQr_solve j) as [e|[state coeffs]] eqn:E;
    cbn [Main.bind Main.ret fst snd]; [discriminate|].
  intros H. injection H as <-. exists state, coeffs.
  split; [reflexivity|]. split; [now apply solve_arguments_inr in E|].
  cbn [Main.msg_steering_angle]. unfold MPC.Solve. cbv zeta.
  rewrite Solve_output_pairs. reflexivity.
Qed.

Lemma steering_sign_changed_in_and_out_witness :
  exists m state,
    Main.on_telemetry 15 Examples.fit_zero
      (Examples.stops_at MPC.success Examples.full_throttle) Examples.turning = inr m
    /\ state = Main.latency_state [0; 0; 0; 0]%R (Main.speed Examples.turning)
                  (- Main.steering_angle Examples.turning)
                  (Main.throttle Examples.turning)
    /\ Main.msg_steering_angle m
       = (- vget (MPC.x (Examples.stops_at MPC.success Examples.full_throttle
                           (MPC.Solve_problem 15 state [0; 0; 0; 0]%R)))
                 (MPC.delta_start 15))%R.
Proof.
  assert (E : exists m, Main.on_telemetry 15 Examples.fit_zero
      (Examples.stops_at MPC.success Examples.full_throttle) Examples.turning = inr m).
  { eexists. unfold Main.on_telemetry, Main.solve_arguments, Main.polyfit.
    cbn. reflexivity. }
  destruct E as (m & E). exists m.
  destruct (steering_sign_changed_in_and_out 15 Examples.fit_zero
              (Examples.stops_at MPC.success Examples.full_throttle)
              Examples.turning m E) as (state & coeffs & A & S & M).
  assert (C : coeffs = [0; 0; 0; 0]%R).
  { unfold Main.solve_arguments, Main.polyfit in A. cbn in A.
    injection A as _ C. now symmetry. }
  subst coeffs. exists state. split; [exact E|]. split; [exact S|exact M].
Defined.

(** C8, the claim as it is worded, fails: with a steering of [0.2]
    received at speed [10], the heading the solver starts from is
    [10 * (-0.2) / Lf * dt_lat < 0], the one of the negated steering, not
    the one of the steering as received. *)
Lemma steering_is_converted_on_the_way_in :
  (exists state coeffs,
     Main.solve_arguments Examples.fit_zero Examples.turning = inr (state, coeffs)
     /\ (vget state 2 < 0)%R)
  /\ ~ Spec.steering_converted_once Examples.fit_zero Examples.turning.
Proof.
  assert (E : Main.solve_arguments Examples.fit_zero Examples.turning
              = inr (Main.latency_state [0; 0; 0; 0]%R 10 (0.2 * -1) 0, [0; 0; 0; 0]%R)).
  { unfold Main.solve_arguments, Main.polyfit. cbn. reflexivity. }
  split.
  - eexists. eexists. split; [exact E|].
    rewrite latency_state_adjusted. cbn [vget nth].
    unfold Main.Lf, Main.dt_lat. lra.
  - intros H. specialize (H _ _ E).
    cbn [Main.speed Main.steering_angle Main.throttle Examples.turning] in H.
    rewrite !latency_state_adjusted in H.
    apply (f_equal (fun l => nth 2 l 0%R)) in H. cbn [nth] in H.
    unfold Main.Lf, Main.dt_lat in H. lra.
Qed.

(* ================================================================== *)
(** * C4: too few way-points *)
(* ================================================================== *)

Section Waypoints.

Import Main.
Local Open Scope R_scope.

Lemma length_waypoints_in_car_frame (xs ys : vec) (px py psi : R) :
  length (fst (waypoints_in_car_frame xs ys px py psi)) = length xs
  /\ length (snd (waypoints_in_car_frame xs ys px py psi)) = length ys.
Proof.
  unfold waypoints_in_car_frame.
  apply (for_loop_invariant
           (fun w : vec * vec => length (fst w) = length xs /\ length (snd w) = length ys)).
  - intros t w _ (A & B). cbn [fst snd]. now rewrite !length_vset.
  - cbn [fst snd]. now rewrite !length_vnew.
Qed.

Lemma polyfit_order_too_high (qr : matrix -> vec -> vec) (xs ys : vec) (order : Z) :
  length xs = length ys ->
  (Z.of_nat (length xs) <= order)%Z ->
  polyfit qr xs ys order = inl assert_order.
Proof.
  intros L H. unfold polyfit, assert_that. rewrite L, Nat.eqb_refl. cbn [bind].
  replace (order <=? Z.of_nat (length ys) - 1)%Z with false.
  - rewrite andb_false_r. reflexivity.
  - symmetry. apply Z.leb_gt. lia.
Qed.

End Waypoints.

(** C4.  With the assertions of [polyfit] compiled in: a fit of an order at
    least the number of points fails the assertion on the order before any
    matrix is built or solved, whatever the least-squares solve would do;
    and for every telemetry input with fewer than [4] way-points the
    handler ends at that assertion, whatever the least-squares solve and
    the optimizer would do: no reply is computed. *)
Theorem too_few_waypoints_stop_the_cycle :
  (forall (householderQr_solve : Main.matrix -> vec -> vec) (xvals yvals : vec) (order : Z),
     length xvals = length yvals ->
     (Z.of_nat (length xvals) <= order)%Z ->
     Main.polyfit householderQr_solve xvals yvals order = inl Main.assert_order)
  /\ (forall (N : nat) (householderQr_solve : Main.matrix -> vec -> vec)
             (ipopt_solve : MPC.problem -> MPC.solve_result) (j : Main.telemetry),
       length (Main.ptsx j) = length (Main.ptsy j) ->
       (length (Main.ptsx j) < 4)%nat ->
       Main.on_telemetry N householderQr_solve ipopt_solve j = inl Main.assert_order).
Proof.
  split.
  - intros qr xs ys order. apply polyfit_order_too_high.
  - intros N qr ipopt j L H.
    unfold Main.on_telemetry, Main.solve_arguments. cbv zeta.
    destruct (length_waypoints_in_car_frame (Main.ptsx j) (Main.ptsy j)
                (Main.tel_x j) (Main.tel_y j) (Main.tel_psi j)) as (A & B).
    rewrite polyfit_order_too_high; [reflexivity | congruence | lia].
Qed.

Lemma too_few_waypoints_stop_the_cycle_witness :
  Main.polyfit Examples.fit_zero [0; 1; 2]%R [0; 0; 0]%R 3 = inl Main.assert_order
  /\ Main.on_telemetry 15 Examples.fit_zero
       (Examples.stops_at MPC.success Examples.full_throttle)
       Examples.three_waypoints = inl Main.assert_order.
Proof.
  split.
  - apply (proj1 too_few_waypoints_stop_the_cycle); [reflexivity | simpl; lia].
  - apply (proj2 too_few_waypoints_stop_the_cycle); [reflexivity | simpl; lia].
Defined.

(* ================================================================== *)
(** * The theorems at the horizon of the source *)
(* ================================================================== *)

Lemma FG_eval_objective_witness :
  vget (MPC.FG_eval 15 (vnew 4) (vnew 91) Examples.full_throttle) 0
  = Spec.objective 15 Examples.full_throttle.
Proof.
  apply (FG_eval_objective 15 (vnew 4) (vnew 91) Examples.full_throttle);
    [lia | reflexivity].
Defined.


(** At the horizon of the source, for the decision vector that is zero but
    for [x_14 = 1]: the entry [fg[15]] is left as it was, the constraint
    entries are those of the zero vector, and the residual of [x] for the
    last step, which is [1], stands nowhere. *)
Lemma FG_eval_last_step_not_constrained_witness :
  vget (MPC.FG_eval 15 (vnew 4) (vnew 91) Examples.only_x14) 15 = vget (vnew 91) 15
  /\ vget (MPC.FG_eval 15 (vnew 4) (vnew 91) (vnew 118)) 14
     = vget (MPC.FG_eval 15 (vnew 4) (vnew 91) Examples.only_x14) 14
  /\ Aux.model_residual 15 (vnew 4) Examples.only_x14 0 13 = 1%R.
Proof.
  destruct (FG_eval_last_step_not_constrained 15 (vnew 4) (vnew 91) (vnew 118)
              Examples.only_x14) as (_ & _ & _ & Same); [lia | reflexivity | |].
  - intros i Hi. unfold Examples.only_x14. rewrite vget_vset_neq; [reflexivity|].
    intros <-. apply Hi. left. reflexivity.
  - destruct (FG_eval_last_step_not_constrained 15 (vnew 4) (vnew 91)
                Examples.only_x14 Examples.only_x14)
      as (_ & _ & Kept & _); [lia | reflexivity | reflexivity |].
    split; [|split].
    + apply (Kept 14%nat). left. reflexivity.
    + apply Same. lia.
    + unfold Aux.model_residual. cbn. unfold MPC.dt. lra.
Defined.

Lemma Solve_bounds_of_the_variables_witness :
  let vars := MPC.Solve 15 (Examples.stops_at MPC.success Examples.full_throttle)
                        (vnew 6) (vnew 4) in
  (Rabs (vget vars 0) <= 0.436332)%R /\ (Rabs (vget vars 1) <= 1)%R.
Proof.
  intros vars.
  destruct (Solve_bounds_of_the_variables 15
              (Examples.stops_at MPC.success Examples.full_throttle)
              (vnew 6) (vnew 4) ltac:(lia)) as (_ & Hs & Hd & Ha & Hc).
  apply Hc. intros i Hi.
  change (MPC.x (Examples.stops_at MPC.success Examples.full_throttle _))
    with Examples.full_throttle.
  change (MPC.n_vars 15) with 118%nat in Hi.
  change (MPC.delta_start 15) with 90%nat in Hs, Hd.
  change (MPC.a_start 15) with 104%nat in Ha.
  unfold Examples.full_throttle. rewrite !vget_vset, !length_vset, length_vnew, vget_vnew.
  destruct (Nat.lt_ge_cases i 90) as [H1|H1].
  - destruct (Hs i H1) as (-> & ->).
    replace (104 =? i)%nat with false by (symmetry; apply Nat.eqb_neq; lia).
    replace (90 =? i)%nat with false by (symmetry; apply Nat.eqb_neq; lia).
    cbn [andb]. lra.
  - destruct (Nat.lt_ge_cases i 104) as [H2|H2].
    + destruct (Hd (i - 90)%nat ltac:(lia)) as (A & B).
      replace (90 + (i - 90))%nat with i in A, B by lia. rewrite A, B.
      replace (104 =? i)%nat with false by (symmetry; apply Nat.eqb_neq; lia).
      cbn [andb]. destruct ((90 =? i)%nat && (90 <? 118)%nat); lra.
    + destruct (Ha (i - 104)%nat ltac:(lia)) as (A & B).
      replace (104 + (i - 104))%nat with i in A, B by lia. rewrite A, B.
      replace (90 =? i)%nat with false by (symmetry; apply Nat.eqb_neq; lia).
      cbn [andb]. destruct ((104 =? i)%nat && (104 <? 118)%nat); lra.
Defined.

(* ================================================================== *)
(** * C9: polyfit on the samples of a cubic *)
(* ================================================================== *)

Section DesignFacts.

Import Main Aux.
Local Open Scope R_scope.

Lemma vset_vset {T : Type} (v : list T) (i : nat) (a b : T) :
  vset (vset v i a) i b = vset v i b.
Proof.
  revert i; induction v as [|c v IH]; intros [|i]; simpl; auto.
  now rewrite IH.
Qed.

Lemma vset_nth_same {T : Type} (v : list T) (i : nat) (d : T) :
  vset v i (nth i v d) = v.
Proof.
  revert i; induction v as [|c v IH]; intros [|i]; simpl; auto.
  now rewrite IH.
Qed.

(** A loop whose iteration [j] rewrites the entry [j] from its own value. *)
Lemma rows_loop {T : Type} (d : T) (F : nat -> T -> T) (n : nat)
      (body : nat -> list T -> list T) (A : list T) :
  (forall j B, (j < n)%nat -> length B = length A ->
               body j B = vset B j (F j (nth j B d))) ->
  (n <= length A)%nat ->
  length (for_loop n body A) = length A
  /\ forall j, nth j (for_loop n body A) d
              = if (j <? n)%nat then F j (nth j A d) else nth j A d.
Proof.
  induction n as [|n IH]; intros Hb Hn; cbn [for_loop].
  - split; auto.
  - destruct IH as (L & V); [intros; apply Hb; auto; lia | lia |].
    rewrite Hb by (auto; lia). split; [now rewrite length_vset|].
    intros j. destruct (Nat.eq_dec j n) as [->|Hne].
    + rewrite nth_vset_eq by lia. rewrite V, Nat.ltb_irrefl.
      replace (n <? S n)%nat with true by (symmetry; apply Nat.ltb_lt; lia).
      reflexivity.
    + rewrite nth_vset_neq by auto. rewrite V.
      destruct (Nat.ltb_spec j n), (Nat.ltb_spec j (S n)); auto; lia.
Qed.

Lemma inner_loop (j : nat) (x : R) (order : nat) (A : matrix) :
  (j < length A)%nat ->
  for_loop order (fun i A => mset A j (i + 1) (mget A j i * x)) A
  = vset A j (row_fill x order (nth j A [])).
Proof.
  intros Hj. induction order as [|k IH]; cbn [for_loop].
  - unfold row_fill. cbn [for_loop]. now rewrite vset_nth_same.
  - rewrite IH. unfold mset, mget. rewrite nth_vset_eq by exact Hj.
    rewrite vset_vset. reflexivity.
Qed.

Lemma design_rows (xs : vec) (order : nat) :
  length (design xs order) = length xs
  /\ forall j, (j < length xs)%nat ->
       nth j (design xs order) []
       = row_fill (vget xs j) order (vset (vnew (order + 1)) 0 1.0).
Proof.
  unfold design. cbv zeta.
  assert (L0 : length (mnew (length xs) (order + 1)) = length xs)
    by apply repeat_length.
  destruct (rows_loop [] (fun _ (r : vec) => vset r 0 1.0) (length xs)
              (fun i A => mset A i 0 1.0) (mnew (length xs) (order + 1)))
    as (L1 & V1);
    [reflexivity | apply Nat.eq_le_incl; symmetry; exact L0 |].
  set (A1 := for_loop (length xs) (fun i A => mset A i 0 1.0)
               (mnew (length xs) (order + 1))) in *.
  destruct (rows_loop [] (fun j (r : vec) => row_fill (vget xs j) order r) (length xs)
              (fun j A =>
                 for_loop order
                   (fun i A => mset A j (i + 1) (mget A j i * vget xs j)) A) A1)
    as (L2 & V2).
  - intros j B Hj HB. apply inner_loop. unfold A1, matrix, vec in *. lia.
  - unfold A1, matrix, vec in *. lia.
  - split; [unfold A1, matrix, vec in *; lia|]. intros j Hj.
    rewrite V2. unfold A1. rewrite V1.
    replace (j <? length xs)%nat with true by (symmetry; apply Nat.ltb_lt; lia).
    unfold mnew. now rewrite nth_repeat_lt by exact Hj.
Qed.

Lemma design_row_3 (xs : vec) (j : nat) :
  (j < length xs)%nat ->
  nth j (design xs 3) []
  = [1.0; 1.0 * vget xs j; 1.0 * vget xs j * vget xs j;
     1.0 * vget xs j * vget xs j * vget xs j].
Proof.
  intros Hj. destruct (design_rows xs 3) as (_ & V). rewrite V by exact Hj.
  reflexivity.
Qed.

Lemma polyeval_4 (p0 p1 p2 p3 x : R) :
  polyeval [p0; p1; p2; p3] x = p0 + p1 * x + p2 * x ^ 2 + p3 * x ^ 3.
Proof. unfold polyeval. cbn. lra. Qed.

Lemma dot_row_3 (c0 c1 c2 c3 x : R) :
  Spec.dot [1.0; 1.0 * x; 1.0 * x * x; 1.0 * x * x * x] [c0; c1; c2; c3]
  = c0 + c1 * x + c2 * x ^ 2 + c3 * x ^ 3.
Proof. cbn. replace 1.0 with 1 by lra. ring. Qed.

Lemma cubic_unique (a b c d e0 e1 e2 e3 : R) :
  a <> b -> a <> c -> a <> d -> b <> c -> b <> d -> c <> d ->
  e0 + e1 * a + e2 * a ^ 2 + e3 * a ^ 3 = 0 ->
  e0 + e1 * b + e2 * b ^ 2 + e3 * b ^ 3 = 0 ->
  e0 + e1 * c + e2 * c ^ 2 + e3 * c ^ 3 = 0 ->
  e0 + e1 * d + e2 * d ^ 2 + e3 * d ^ 3 = 0 ->
  e0 = 0 /\ e1 = 0 /\ e2 = 0 /\ e3 = 0.
Proof.
  intros ab ac ad bc bd cd Ha Hb Hc Hd.
  assert (G1 : e1 + e2 * (a + b) + e3 * (a ^ 2 + a * b + b ^ 2) = 0).
  { apply (Rmult_eq_reg_l (a - b)); [|lra]. rewrite Rmult_0_r.
    replace 0 with ((e0 + e1 * a + e2 * a ^ 2 + e3 * a ^ 3)
                    - (e0 + e1 * b + e2 * b ^ 2 + e3 * b ^ 3)) by lra. ring. }
  assert (G2 : e1 + e2 * (b + c) + e3 * (b ^ 2 + b * c + c ^ 2) = 0).
  { apply (Rmult_eq_reg_l (b - c)); [|lra]. rewrite Rmult_0_r.
    replace 0 with ((e0 + e1 * b + e2 * b ^ 2 + e3 * b ^ 3)
                    - (e0 + e1 * c + e2 * c ^ 2 + e3 * c ^ 3)) by lra. ring. }
  assert (G3 : e1 + e2 * (c + d) + e3 * (c ^ 2 + c * d + d ^ 2) = 0).
  { apply (Rmult_eq_reg_l (c - d)); [|lra]. rewrite Rmult_0_r.
    replace 0 with ((e0 + e1 * c + e2 * c ^ 2 + e3 * c ^ 3)
                    - (e0 + e1 * d + e2 * d ^ 2 + e3 * d ^ 3)) by lra. ring. }
  assert (K1 : e2 + e3 * (a + b + c) = 0).
  { apply (Rmult_eq_reg_l (a - c)); [|lra]. rewrite Rmult_0_r.
    replace 0 with ((e1 + e2 * (a + b) + e3 * (a ^ 2 + a * b + b ^ 2))
                    - (e1 + e2 * (b + c) + e3 * (b ^ 2 + b * c + c ^ 2))) by lra. ring. }
  assert (K2 : e2 + e3 * (b + c + d) = 0).
  { apply (Rmult_eq_reg_l (b - d)); [|lra]. rewrite Rmult_0_r.
    replace 0 with ((e1 + e2 * (b + c) + e3 * (b ^ 2 + b * c + c ^ 2))
                    - (e1 + e2 * (c + d) + e3 * (c ^ 2 + c * d + d ^ 2))) by lra. ring. }
  assert (E3 : e3 = 0).
  { apply (Rmult_eq_reg_l (a - d)); [|lra]. rewrite Rmult_0_r.
    replace 0 with ((e2 + e3 * (a + b + c)) - (e2 + e3 * (b + c + d))) by lra. ring. }
  subst e3.
  assert (E2 : e2 = 0) by lra. subst e2.
  assert (E1 : e1 = 0) by lra. subst e1.
  repeat split; lra.
Qed.

Lemma length_4 (c : vec) :
  length c = 4%nat -> exists c0 c1 c2 c3, c = [c0; c1; c2; c3].
Proof.
  destruct c as [|c0 [|c1 [|c2 [|c3 [|? ?]]]]]; try discriminate.
  intros _. now exists c0, c1, c2, c3.
Qed.

(** The residual of the coefficients [c] on the samples of the cubic [p]
    at the points [xs]. *)
Lemma residual_on_samples (xs p c : vec) :
  length p = 4%nat -> length c = 4%nat ->
  Spec.residual (design xs 3) c (map (polyeval p) xs)
  = Spec.sum_below (length xs)
      (fun j => (polyeval c (vget xs j) - polyeval p (vget xs j)) ^ 2).
Proof.
  intros Hp Hc. unfold Spec.residual.
  destruct (design_rows xs 3) as (L & _). rewrite L.
  apply sum_below_ext. intros j Hj. rewrite design_row_3 by exact Hj.
  destruct (length_4 c Hc) as (c0 & c1 & c2 & c3 & ->).
  rewrite dot_row_3, polyeval_4. f_equal. f_equal.
  unfold vget.
  rewrite (nth_indep _ 0 (polyeval p 0)) by now rewrite length_map.
  now rewrite map_nth.
Qed.

End DesignFacts.

(** C9.  In exact arithmetic, for every polynomial [p] of degree at most
    [3] (four coefficients) and every sequence of at least [4] points with
    distinct abscissas whose ordinates are [polyeval p] of the abscissas,
    [polyfit] with order [3] returns the coefficients of [p], provided the
    solve of Eigen answers a least-squares solution of the system it is
    given. *)
Theorem polyfit_recovers_the_cubic
        (householderQr_solve : Main.matrix -> vec -> vec) (xvals p : vec) :
  length p = 4%nat ->
  (4 <= length xvals)%nat ->
  NoDup xvals ->
  Spec.least_squares 4 (Main.design xvals 3) (map (Main.polyeval p) xvals)
    (householderQr_solve (Main.design xvals 3) (map (Main.polyeval p) xvals)) ->
  Main.polyfit householderQr_solve xvals (map (Main.polyeval p) xvals) 3 = inr p.
Proof.
  intros Hp Hn Hd (Hc & Hmin).
  unfold Main.polyfit, Main.assert_that.
  rewrite length_map, Nat.eqb_refl. cbn [Main.bind].
  replace (3 <=? Z.of_nat (length xvals) - 1)%Z with true
    by (symmetry; apply Z.leb_le; lia).
  change (1 <=? 3)%Z with true.
  cbn [andb Main.bind Main.ret].
  change (Z.to_nat 3) with 3%nat.
  set (c := householderQr_solve (Main.design xvals 3) (map (Main.polyeval p) xvals)) in *.
  unfold Main.ret.
  (* the residual of [c] is zero, as the one of [p] is *)
  pose proof (Hmin p Hp) as Hle.
  rewrite !residual_on_samples in Hle by assumption.
  assert (Z0 : Spec.sum_below (length xvals)
            (fun j => (Main.polyeval p (vget xvals j)
                       - Main.polyeval p (vget xvals j)) ^ 2)%R = 0%R).
  { apply sum_below_zero; [intros; apply pow2_ge_0|].
    intros t _. replace (_ - _)%R with 0%R by ring. simpl. ring. }
  assert (Zc : forall j, (j < length xvals)%nat ->
            Main.polyeval c (vget xvals j) = Main.polyeval p (vget xvals j)).
  { intros j Hj.
    assert (E : ((Main.polyeval c (vget xvals j)
                  - Main.polyeval p (vget xvals j)) ^ 2 = 0)%R).
    { revert j Hj. apply sum_below_zero; [intros; apply pow2_ge_0|].
      pose proof (sum_below_nonneg (length xvals)
        (fun j => (Main.polyeval c (vget xvals j)
                   - Main.polyeval p (vget xvals j)) ^ 2)%R
        (fun t _ => pow2_ge_0 _)).
      lra. }
    apply sqr_zero in E. lra. }
  (* four distinct points *)
  destruct xvals as [|a [|b [|x2 [|x3 rest]]]]; cbn [length] in Hn; try lia.
  pose proof (Zc 0%nat ltac:(cbn [length]; lia)) as Ea.
  pose proof (Zc 1%nat ltac:(cbn [length]; lia)) as Eb.
  pose proof (Zc 2%nat ltac:(cbn [length]; lia)) as E2.
  pose proof (Zc 3%nat ltac:(cbn [length]; lia)) as E3.
  cbn [vget nth] in Ea, Eb, E2, E3.
  inversion Hd as [|? ? Na Hd1]; subst.
  inversion Hd1 as [|? ? Nb Hd2]; subst.
  inversion Hd2 as [|? ? N2 _]; subst.
  assert (a <> b /\ a <> x2 /\ a <> x3 /\ b <> x2 /\ b <> x3 /\ x2 <> x3)
    as (ab & a2 & a3 & b2 & b3 & d23).
  { repeat split; intros ->.
    - apply Na. left. reflexivity.
    - apply Na. right. left. reflexivity.
    - apply Na. right. right. left. reflexivity.
    - apply Nb. left. reflexivity.
    - apply Nb. right. left. reflexivity.
    - apply N2. left. reflexivity. }
  clearbody c.
  destruct (length_4 c Hc) as (c0 & c1 & c2 & c3 & ->).
  destruct (length_4 p Hp) as (p0 & p1 & p2 & p3 & ->).
  rewrite !polyeval_4 in Ea, Eb, E2, E3.
  destruct (cubic_unique a b x2 x3 (c0 - p0) (c1 - p1) (c2 - p2) (c3 - p3))
    as (F0 & F1 & F2 & F3); auto; try lra.
  repeat f_equal; lra.
Qed.

(** The coefficients the samples come from are a least-squares solution. *)
Lemma least_squares_of_samples (xvals p : vec) :
  length p = 4%nat ->
  Spec.least_squares 4 (Main.design xvals 3) (map (Main.polyeval p) xvals) p.
Proof.
  intros Hp. split; [exact Hp|]. intros c' Hc'.
  rewrite !residual_on_samples by assumption.
  replace (Spec.sum_below (length xvals)
             (fun j => (Main.polyeval p (vget xvals j)
                        - Main.polyeval p (vget xvals j)) ^ 2)%R) with 0%R.
  - apply sum_below_nonneg. intros; apply pow2_ge_0.
  - symmetry. apply sum_below_zero; [intros; apply pow2_ge_0|].
    intros t _. replace (_ - _)%R with 0%R by ring. simpl. ring.
Qed.

Lemma polyfit_recovers_the_cubic_witness :
  Main.polyfit Examples.fit_cubic [0; 1; 2; 3]%R
    (map (Main.polyeval Examples.cubic) [0; 1; 2; 3]%R) 3
  = inr Examples.cubic.
Proof.
  apply (polyfit_recovers_the_cubic Examples.fit_cubic [0; 1; 2; 3]%R Examples.cubic).
  - reflexivity.
  - simpl. lia.
  - repeat constructor; simpl; intuition lra.
  - apply least_squares_of_samples. reflexivity.
Defined.

(* ================================================================== *)
(** * Strings: searching in a concatenation *)
(* ================================================================== *)

Section StringFacts.

Import Str.
Local Open Scope string_scope.

Lemma prefix_append (p r : string) : prefix p (p ++ r) = true.
Proof.
  induction p as [|c p IH]; simpl.
  - now destruct r.
  - destruct (ascii_dec c c) as [_|H]; [exact IH | now elim H].
Qed.

Lemma length_append_str (a b : string) :
  String.length (a ++ b) = (String.length a + String.length b)%nat.
Proof. induction a as [|c a IH]; simpl; auto. Qed.

Lemma append_assoc_str (a b c : string) : (a ++ b) ++ c = a ++ (b ++ c).
Proof. induction a as [|d a IH]; simpl; auto. now rewrite IH. Qed.

Lemma find_prefix (pat s : string) :
  prefix pat s = true -> find pat s = Some 0%nat.
Proof. intros H. destruct s; simpl in *; now rewrite H. Qed.

(** A pattern that occurs is found. *)
Lemma find_occurrence (pat a r : string) :
  exists n, find pat (a ++ pat ++ r) = Some n.
Proof.
  induction a as [|c a (n & IH)].
  - exists 0%nat. cbn [append]. apply find_prefix, prefix_append.
  - cbn [append find]. rewrite IH.
    destruct (prefix pat (String c (a ++ pat ++ r)));
      [exists 0%nat | exists (S n)]; reflexivity.
Qed.

Lemma find_first_of_append (set a r : string) (c : ascii) :
  find_first_of set a = None ->
  mem c set = true ->
  find_first_of set (a ++ String c r) = Some (String.length a).
Proof.
  intros Ha Hc. induction a as [|d a IH]; simpl in *.
  - now rewrite Hc.
  - destruct (mem d set); [discriminate|].
    destruct (find_first_of set a); [discriminate|].
    now rewrite IH.
Qed.

Lemma rfind_append (pat a r : string) (n : nat) :
  rfind pat r = Some n ->
  rfind pat (a ++ r) = Some (String.length a + n)%nat.
Proof.
  intros Hr. induction a as [|c a IH]; simpl; auto.
  now rewrite IH.
Qed.

Lemma substring_skip (a r : string) (m : nat) :
  substring (String.length a) m (a ++ r) = substring 0 m r.
Proof. induction a as [|c a IH]; simpl; auto. Qed.

Lemma substring_take (x y : string) :
  substring 0 (String.length x) (x ++ y) = x.
Proof.
  induction x as [|c x IH]; simpl.
  - now destruct y.
  - now rewrite IH.
Qed.

Lemma substring_all (x : string) (m : nat) :
  (String.length x <= m)%nat -> substring 0 m x = x.
Proof.
  revert m; induction x as [|c x IH]; intros m Hm; simpl in *.
  - now destruct m.
  - destruct m as [|m]; [lia|]. rewrite IH by lia. reflexivity.
Qed.

End StringFacts.

(* ================================================================== *)
(** * hasData and the head of the message handler *)
(* ================================================================== *)

Section HasDataFacts.

Import Str Main.
Local Open Scope string_scope.

Lemma rfind_closing (post : string) :
  rfind "}]" post = None -> rfind "}]" ("}]" ++ post) = Some 0%nat.
Proof.
  intros H. cbn [append rfind]. rewrite H.
  destruct post; reflexivity.
Qed.

Lemma substring_none (n : nat) (s : string) : substring n 0 s = "".
Proof.
  revert n; induction s as [|c s IH]; intros [|n]; simpl; auto.
Qed.

Lemma size_modulus_value : size_modulus = 18446744073709551616%Z.
Proof. reflexivity. Qed.

Lemma hasData_null (a b : string) : hasData (a ++ "null" ++ b) = "".
Proof.
  unfold hasData. destruct (find_occurrence "null" a b) as (n & ->). reflexivity.
Qed.

Lemma hasData_framed (pre mid post : string) :
  let s := pre ++ "[" ++ mid ++ "}]" ++ post in
  find "null" s = None ->
  find_first_of "[" pre = None ->
  rfind "}]" post = None ->
  (Z.of_nat (String.length s) < size_modulus)%Z ->
  hasData s = "[" ++ mid ++ "}]".
Proof.
  intros s Hnull Hpre Hpost Hlen. unfold hasData. rewrite Hnull.
  assert (B1 : find_first_of "[" s = Some (String.length pre)).
  { unfold s. apply (find_first_of_append "[" pre (mid ++ "}]" ++ post) "[");
      [exact Hpre | reflexivity]. }
  assert (B2 : rfind "}]" s = Some (String.length pre + 1 + String.length mid)%nat).
  { unfold s.
    replace (pre ++ "[" ++ mid ++ "}]" ++ post)
      with ((pre ++ "[" ++ mid) ++ ("}]" ++ post))
      by (rewrite !append_assoc_str; reflexivity).
    rewrite (rfind_append "}]" _ _ 0 (rfind_closing post Hpost)).
    rewrite !length_append_str. cbn [String.length]. f_equal. lia. }
  rewrite B1, B2. unfold substr.
  assert (L : String.length s
              = (String.length pre + (String.length mid + 3 + String.length post))%nat).
  { unfold s. rewrite !length_append_str. cbn [String.length]. lia. }
  rewrite size_modulus_value in *.
  replace ((Z.of_nat (String.length pre + 1 + String.length mid)
            - Z.of_nat (String.length pre) + 2) mod 18446744073709551616)%Z
    with (Z.of_nat (String.length mid + 3)).
  2:{ rewrite Z.mod_small; lia. }
  replace (Z.to_nat (Z.min (Z.of_nat (String.length mid + 3))
                       (Z.of_nat (String.length s) - Z.of_nat (String.length pre))))
    with (String.length ("[" ++ mid ++ "}]")).
  2:{ rewrite !length_append_str. cbn [String.length]. lia. }
  unfold s. rewrite substring_skip.
  replace ("[" ++ mid ++ "}]" ++ post) with (("[" ++ mid ++ "}]") ++ post)
    by (rewrite !append_assoc_str; reflexivity).
  apply substring_take.
Qed.

Lemma hasData_reversed (a m r : string) :
  let s := a ++ "}]" ++ m ++ "[" ++ r in
  find "null" s = None ->
  find_first_of "[" (a ++ "}]" ++ m) = None ->
  rfind "}]" (m ++ "[" ++ r) = None ->
  (Z.of_nat (String.length s) < size_modulus)%Z ->
  hasData s = match m with EmptyString => "" | String _ _ => "[" ++ r end.
Proof.
  intros s Hnull Hpre Hpost Hlen. unfold hasData. rewrite Hnull.
  assert (B1 : find_first_of "[" s = Some (String.length (a ++ "}]" ++ m))).
  { unfold s.
    replace (a ++ "}]" ++ m ++ "[" ++ r) with ((a ++ "}]" ++ m) ++ String "[" r)
      by (rewrite !append_assoc_str; reflexivity).
    apply find_first_of_append; [exact Hpre | reflexivity]. }
  assert (B2 : rfind "}]" s = Some (String.length a + 0)%nat).
  { unfold s. apply rfind_append, rfind_closing, Hpost. }
  rewrite B1, B2. unfold substr.
  assert (L : String.length s
              = (String.length a + 2 + String.length m + 1 + String.length r)%nat).
  { unfold s. rewrite !length_append_str. cbn [String.length]. lia. }
  assert (La : String.length (a ++ "}]" ++ m)
               = (String.length a + 2 + String.length m)%nat).
  { rewrite !length_append_str. cbn [String.length]. lia. }
  rewrite size_modulus_value in *.
  destruct m as [|c m].
  - replace ((Z.of_nat (String.length a + 0) - Z.of_nat (String.length (a ++ "}]" ++ ""))
              + 2) mod 18446744073709551616)%Z with 0%Z.
    2:{ rewrite La. cbn [String.length].
        replace (Z.of_nat (String.length a + 0) - Z.of_nat (String.length a + 2 + 0) + 2)%Z
          with 0%Z by lia. reflexivity. }
    replace (Z.to_nat (Z.min 0 (Z.of_nat (String.length s)
                                - Z.of_nat (String.length (a ++ "}]" ++ "")))))
      with 0%nat by lia.
    apply substring_none.
  - set (m' := String c m) in *.
    assert (Lm : (0 < String.length m')%nat) by (unfold m'; cbn [String.length]; lia).
    replace ((Z.of_nat (String.length a + 0) - Z.of_nat (String.length (a ++ "}]" ++ m'))
              + 2) mod 18446744073709551616)%Z
      with (18446744073709551616 - Z.of_nat (String.length m'))%Z.
    2:{ rewrite La.
        replace (Z.of_nat (String.length a + 0)
                 - Z.of_nat (String.length a + 2 + String.length m') + 2)%Z
          with ((18446744073709551616 - Z.of_nat (String.length m'))
                + (-1) * 18446744073709551616)%Z by lia.
        rewrite Z.mod_add by lia. rewrite Z.mod_small; lia. }
    replace (Z.to_nat (Z.min (18446744073709551616 - Z.of_nat (String.length m'))
                         (Z.of_nat (String.length s)
                          - Z.of_nat (String.length (a ++ "}]" ++ m')))))
      with (S (String.length r)) by lia.
    unfold s.
    replace (a ++ "}]" ++ m' ++ "[" ++ r) with ((a ++ "}]" ++ m') ++ String "[" r)
      by (rewrite !append_assoc_str; reflexivity).
    rewrite substring_skip. apply substring_all. simpl. lia.
Qed.

End HasDataFacts.

(** X1.  A message that holds the word [null] anywhere has no data for
    [hasData], whatever brackets it holds; with the prefix [42] the handler
    answers it with the manual-driving message and parses nothing. *)
Theorem null_anywhere_means_manual (a b : string) :
  Main.hasData (a ++ "null" ++ b) = ""%string
  /\ Main.on_message ("42" ++ a ++ "null" ++ b) = Main.send_manual.
Proof.
  split; [apply hasData_null|].
  unfold Main.on_message.
  change ("42" ++ a ++ "null" ++ b)%string
    with (String "4" (String "2" (a ++ "null" ++ b)))%string.
  assert (L : (2 <? String.length (String "4" (String "2" (a ++ "null" ++ b))))%nat = true).
  { apply Nat.ltb_lt. cbn [String.length]. rewrite length_append_str.
    cbn [String.length append]. lia. }
  rewrite L. cbn [andb Main.is_char String.get Ascii.eqb Bool.eqb].
  change (String "4" (String "2" (a ++ "null" ++ b)))%string
    with (("42" ++ a) ++ "null" ++ b)%string.
  rewrite hasData_null. reflexivity.
Qed.

(** X2.  For a message [pre [ mid }] post] without the word [null], whose
    part [pre] holds no opening bracket and whose part [post] holds no [}]],
    [hasData] answers exactly the framed data [[ mid }]]; when [pre] is the
    prefix [42] the handler goes on to parse that data. *)
Theorem hasData_extracts_the_frame (pre mid post : string) :
  let s := (pre ++ "[" ++ mid ++ "}]" ++ post)%string in
  Str.find "null" s = None ->
  Str.find_first_of "[" pre = None ->
  Str.rfind "}]" post = None ->
  (Z.of_nat (String.length s) < Str.size_modulus)%Z ->
  Main.hasData s = ("[" ++ mid ++ "}]")%string
  /\ (pre = "42"%string -> Main.on_message s = Main.parse ("[" ++ mid ++ "}]")%string).
Proof.
  intros s Hnull Hpre Hpost Hlen.
  assert (H : Main.hasData s = ("[" ++ mid ++ "}]")%string)
    by (apply hasData_framed; assumption).
  split; [exact H|]. intros ->.
  unfold Main.on_message. rewrite H. reflexivity.
Qed.

Lemma hasData_extracts_the_frame_witness :
  Main.hasData "42[telemetry,{}]xx" = "[telemetry,{}]"%string
  /\ ("42"%string = "42"%string ->
      Main.on_message "42[telemetry,{}]xx" = Main.parse "[telemetry,{}]").
Proof.
  apply (hasData_extracts_the_frame "42" "telemetry,{" "xx");
    [reflexivity | reflexivity | reflexivity | vm_compute; reflexivity].
Defined.

(** X3.  When the last [}]] of a message without [null] stands before its
    first opening bracket, the count [b2 - b1 + 2] of [hasData] wraps
    around: with nothing between the two the answer is empty, and with
    anything between them the answer is the whole rest of the message from
    that bracket on. *)
Theorem hasData_closing_before_opening (a m r : string) :
  let s := (a ++ "}]" ++ m ++ "[" ++ r)%string in
  Str.find "null" s = None ->
  Str.find_first_of "[" (a ++ "}]" ++ m) = None ->
  Str.rfind "}]" (m ++ "[" ++ r) = None ->
  (Z.of_nat (String.length s) < Str.size_modulus)%Z ->
  Main.hasData s
  = match m with EmptyString => ""%string | String _ _ => ("[" ++ r)%string end.
Proof. intros s. apply hasData_reversed. Qed.

Lemma hasData_closing_before_opening_witness :
  Main.hasData "42}]x[abc" = "[abc"%string.
Proof.
  apply (hasData_closing_before_opening "42" "x" "abc");
    [reflexivity | reflexivity | reflexivity | vm_compute; reflexivity].
Defined.

(* ================================================================== *)
(** * The way-points in the frame of the car *)
(* ================================================================== *)

Section WaypointFacts.

Import Main.
Local Open Scope R_scope.




End WaypointFacts.





(* ================================================================== *)
(** * polyeval *)
(* ================================================================== *)

Section PolyevalFacts.

Import Main.
Local Open Scope R_scope.

Lemma sum_loop (n : nat) (f : nat -> R) (a : R) :
  for_loop n (fun i r => r + f i) a = a + Spec.sum_below n f.
Proof.
  induction n as [|n IH]; cbn [for_loop Spec.sum_below]; [ring|].
  rewrite IH. ring.
Qed.

Lemma polyeval_sum (coeffs : vec) (x : R) :
  polyeval coeffs x = Spec.sum_below (length coeffs) (fun i => vget coeffs i * x ^ i).
Proof. unfold polyeval. rewrite sum_loop. lra. Qed.

Lemma sum_below_shift (n : nat) (f : nat -> R) :
  Spec.sum_below (S n) f = f 0%nat + Spec.sum_below n (fun i => f (S i)).
Proof.
  induction n as [|n IH].
  - simpl. ring.
  - change (Spec.sum_below (S (S n)) f) with (Spec.sum_below (S n) f + f (S n)).
    rewrite IH. simpl. ring.
Qed.




End PolyevalFacts.




(* ================================================================== *)
(** * The problem MPC::Solve poses *)
(* ================================================================== *)

Section ProblemFacts.

Import MPC Aux Props.
Local Open Scope R_scope.

Variable N : nat.
Hypothesis HN : (2 <= N)%nat.

Ltac starts_lia' :=
  unfold last_state_index, block_start, n_constraints, n_vars, a_start, delta_start,
    epsi_start, cte_start, v_start, psi_start, y_start, x_start in *; lia.

(** A loop that writes [0] to both vectors of a pair of zero vectors leaves
    zero vectors. *)
Lemma zero_fill (n m : nat) :
  let b := for_loop n (fun i (b : vec * vec) => (vset (fst b) i 0, vset (snd b) i 0))
                    (vnew m, vnew m) in
  length (fst b) = m /\ length (snd b) = m
  /\ forall i, vget (fst b) i = 0 /\ vget (snd b) i = 0.
Proof.
  cbv zeta.
  apply (for_loop_invariant
           (fun b : vec * vec =>
              length (fst b) = m /\ length (snd b) = m
              /\ forall i, vget (fst b) i = 0 /\ vget (snd b) i = 0)).
  - intros t b _ (L1 & L2 & V). cbn [fst snd]. rewrite !length_vset.
    split; [exact L1|]. split; [exact L2|]. intros i. rewrite !vget_vset.
    destruct (V i) as (-> & ->). split; destruct (_ && _); reflexivity.
  - cbn [fst snd]. rewrite !length_vnew. repeat split; apply vget_vnew.
Qed.

Lemma six_sets (z : vec) (state : vec) :
  length z = n_constraints N \/ length z = n_vars N ->
  (forall i, vget z i = 0) ->
  let v := vset (vset (vset (vset (vset (vset z
             x_start (vget state 0)) (y_start N) (vget state 1))
             (psi_start N) (vget state 2)) (v_start N) (vget state 3))
             (cte_start N) (vget state 4)) (epsi_start N) (vget state 5) in
  length v = length z
  /\ (forall k, (k < 6)%nat -> vget v (block_start N k) = vget state k)
  /\ (forall i, (forall k, (k < 6)%nat -> i <> block_start N k) -> vget v i = 0).
Proof.
  intros L Z. cbv zeta. split; [now rewrite !length_vset|]. split.
  - intros k Hk.
    destruct k as [|[|[|[|[|[|k]]]]]]; try lia; unfold block_start;
      repeat (rewrite vget_vset_neq by starts_lia');
      (rewrite vget_vset_eq by (rewrite ?length_vset; starts_lia'));
      reflexivity.
  - intros i Hi.
    pose proof (Hi 0%nat ltac:(lia)). pose proof (Hi 1%nat ltac:(lia)).
    pose proof (Hi 2%nat ltac:(lia)). pose proof (Hi 3%nat ltac:(lia)).
    pose proof (Hi 4%nat ltac:(lia)). pose proof (Hi 5%nat ltac:(lia)).
    unfold block_start in *.
    repeat (rewrite vget_vset_neq by auto). apply Z.
Qed.

Lemma Solve_problem_constraint_bounds (state coeffs : vec) :
  let P := Solve_problem N state coeffs in
  (forall k, (k < 6)%nat ->
     vget (gl P) (block_start N k) = vget state k
     /\ vget (gu P) (block_start N k) = vget state k)
  /\ (forall i, (forall k, (k < 6)%nat -> i <> block_start N k) ->
       vget (gl P) i = 0 /\ vget (gu P) i = 0).
Proof.
  intros P. unfold P, Solve_problem. cbv zeta. cbn [gl gu].
  destruct (zero_fill (n_constraints N) (n_constraints N)) as (L1 & L2 & V).
  match goal with |- context [fst ?b] => set (cb := b) in * end.
  destruct (six_sets (fst cb) state (or_introl L1) (fun i => proj1 (V i)))
    as (_ & A1 & B1).
  destruct (six_sets (snd cb) state (or_introl L2) (fun i => proj2 (V i)))
    as (_ & A2 & B2).
  split.
  - intros k Hk. split; [apply A1 | apply A2]; exact Hk.
  - intros i Hi. split; [apply B1 | apply B2]; exact Hi.
Qed.

Lemma Solve_problem_start (state coeffs : vec) :
  let P := Solve_problem N state coeffs in
  length (xi P) = n_vars N
  /\ (forall k, (k < 6)%nat -> vget (xi P) (block_start N k) = vget state k)
  /\ (forall i, (forall k, (k < 6)%nat -> i <> block_start N k) -> vget (xi P) i = 0).
Proof.
  intros P. unfold P, Solve_problem. cbv zeta. cbn [xi].
  set (z := for_loop (n_vars N) (fun i vars => vset vars i 0) (vnew (n_vars N))).
  assert (Hz : length z = n_vars N /\ forall i, vget z i = 0).
  { unfold z. apply (for_loop_invariant
      (fun v : vec => length v = n_vars N /\ forall i, vget v i = 0)).
    - intros t v _ (L & V). rewrite length_vset. split; [exact L|].
      intros i. rewrite vget_vset, V. destruct (_ && _); reflexivity.
    - split; [apply length_vnew | apply vget_vnew]. }
  destruct Hz as (Lz & Vz).
  destruct (six_sets z state (or_intror Lz) Vz) as (L & A & B).
  split; [now rewrite L|]. split; assumption.
Qed.

(** Every constraint index is the one of a component of the state of time
    [0], of a residual of a step before [N - 2], or of a last slot. *)
Lemma constraint_index_cases (i : nat) :
  (i < n_constraints N)%nat ->
  (exists k, (k < 6)%nat /\ i = block_start N k)
  \/ (exists k t, (k < 6)%nat /\ (t < N - 2)%nat /\ i = (block_start N k + t + 1)%nat)
  \/ last_state_index N i.
Proof.
  intros Hi. unfold n_constraints in Hi.
  assert (C : (i < N \/ N <= i < 2 * N \/ 2 * N <= i < 3 * N \/ 3 * N <= i < 4 * N
               \/ 4 * N <= i < 5 * N \/ 5 * N <= i < 6 * N)%nat) by lia.
  assert (S0 : block_start N 0 = 0%nat) by reflexivity.
  assert (S1 : block_start N 1 = N) by starts_lia'.
  assert (S2 : block_start N 2 = (2 * N)%nat) by starts_lia'.
  assert (S3 : block_start N 3 = (3 * N)%nat) by starts_lia'.
  assert (S4 : block_start N 4 = (4 * N)%nat) by starts_lia'.
  assert (S5 : block_start N 5 = (5 * N)%nat) by starts_lia'.
  assert (G : forall k, (k < 6)%nat ->
            (block_start N k <= i < block_start N k + N)%nat ->
            (exists k, (k < 6)%nat /\ i = block_start N k)
            \/ (exists k t, (k < 6)%nat /\ (t < N - 2)%nat
                            /\ i = (block_start N k + t + 1)%nat)
            \/ i = (block_start N k + (N - 1))%nat).
  { intros k Hk Hr.
    destruct (Nat.eq_dec i (block_start N k)) as [E|NE]; [left; eauto|].
    destruct (Nat.eq_dec i (block_start N k + (N - 1))) as [E'|NE']; [auto|].
    right; left. exists k, (i - block_start N k - 1)%nat.
    split; [exact Hk|]. split; lia. }
  unfold last_state_index.
  change x_start with (block_start N 0). change (y_start N) with (block_start N 1).
  change (psi_start N) with (block_start N 2). change (v_start N) with (block_start N 3).
  change (cte_start N) with (block_start N 4).
  change (epsi_start N) with (block_start N 5).
  destruct C as [C|[C|[C|[C|[C|C]]]]].
  - destruct (G 0%nat) as [H|[H|H]]; first [lia | solve [auto] | right; right; tauto].
  - destruct (G 1%nat) as [H|[H|H]]; first [lia | solve [auto] | right; right; tauto].
  - destruct (G 2%nat) as [H|[H|H]]; first [lia | solve [auto] | right; right; tauto].
  - destruct (G 3%nat) as [H|[H|H]]; first [lia | solve [auto] | right; right; tauto].
  - destruct (G 4%nat) as [H|[H|H]]; first [lia | solve [auto] | right; right; tauto].
  - destruct (G 5%nat) as [H|[H|H]]; first [lia | solve [auto] | right; right; tauto].
Qed.

Lemma follows_model_residuals (coeffs vars : vec) (t : nat) :
  follows_model N coeffs vars t <->
  forall k, (k < 6)%nat -> model_residual N coeffs vars k t = 0.
Proof.
  unfold follows_model. cbv zeta. split.
  - intros (E0 & E1 & E2 & E3 & E4 & E5) k Hk.
    destruct k as [|[|[|[|[|[|k]]]]]]; try lia;
      unfold model_residual, block_start; cbv zeta; lra.
  - intros H.
    pose proof (H 0%nat ltac:(lia)) as E0. pose proof (H 1%nat ltac:(lia)) as E1.
    pose proof (H 2%nat ltac:(lia)) as E2. pose proof (H 3%nat ltac:(lia)) as E3.
    pose proof (H 4%nat ltac:(lia)) as E4. pose proof (H 5%nat ltac:(lia)) as E5.
    unfold model_residual, block_start in *. cbv zeta in *.
    repeat split; lra.
Qed.

End ProblemFacts.

Section Feasibility.

Import MPC Aux Props.
Local Open Scope R_scope.

Variable N : nat.
Hypothesis HN : (2 <= N)%nat.

Ltac blocks_lia :=
  unfold last_state_index, block_start, n_constraints, n_vars, a_start, delta_start,
    epsi_start, cte_start, v_start, psi_start, y_start, x_start in *; lia.

Lemma starts_at_blocks (state vars : vec) :
  starts_at N state vars <->
  forall k, (k < 6)%nat -> vget vars (block_start N k) = vget state k.
Proof.
  unfold starts_at. split.
  - intros (E0 & E1 & E2 & E3 & E4 & E5) k Hk.
    destruct k as [|[|[|[|[|[|k]]]]]]; try lia; assumption.
  - intros H. repeat split.
    + apply (H 0%nat); lia.
    + apply (H 1%nat); lia.
    + apply (H 2%nat); lia.
    + apply (H 3%nat); lia.
    + apply (H 4%nat); lia.
    + apply (H 5%nat); lia.
Qed.

Lemma constraints_hold_characterised (state coeffs fg vars : vec) :
  length fg = S (n_constraints N) ->
  (forall i, last_state_index N i -> vget fg (S i) = 0) ->
  constraints_hold N (Solve_problem N state coeffs) (FG_eval N coeffs fg vars)
  <-> starts_at N state vars
      /\ forall t, (t < N - 2)%nat -> follows_model N coeffs vars t.
Proof.
  intros Hfg Hz.
  destruct (FG_eval_assigns N HN coeffs fg vars Hfg) as (Pin & Res).
  destruct (Solve_problem_constraint_bounds N HN state coeffs) as (GA & GB).
  cbv zeta in GA, GB.
  assert (Kept : forall i, last_state_index N i ->
            vget (FG_eval N coeffs fg vars) (S i) = 0).
  { intros i Hi. rewrite (FG_eval_keeps N HN coeffs fg vars i) by (auto; lia).
    now apply Hz. }
  assert (NotStart : forall k t k', (k < 6)%nat -> (t < N - 2)%nat -> (k' < 6)%nat ->
            (block_start N k + t + 1)%nat <> block_start N k').
  { intros k t k' Hk Ht Hk'.
    destruct k as [|[|[|[|[|[|k]]]]]]; try lia;
      destruct k' as [|[|[|[|[|[|k']]]]]]; try lia; blocks_lia. }
  assert (LastNotStart : forall i k', last_state_index N i -> (k' < 6)%nat ->
            i <> block_start N k').
  { intros i k' Hi Hk'.
    destruct k' as [|[|[|[|[|[|k']]]]]]; try lia; blocks_lia. }
  rewrite starts_at_blocks. unfold constraints_hold. split.
  - intros H. split.
    + intros k Hk.
      assert (Hi : (block_start N k < n_constraints N)%nat)
        by (destruct k as [|[|[|[|[|[|k]]]]]]; try lia; blocks_lia).
      specialize (H _ Hi). destruct (GA k Hk) as (E1 & E2). rewrite E1, E2 in H.
      replace (S (block_start N k)) with (block_start N k + 1)%nat in H by lia.
      rewrite (Pin k Hk) in H. lra.
    + intros t Ht. apply (proj2 (follows_model_residuals N HN coeffs vars t)).
      intros k Hk.
      assert (Hi : (block_start N k + t + 1 < n_constraints N)%nat)
        by (destruct k as [|[|[|[|[|[|k]]]]]]; try lia; blocks_lia).
      specialize (H _ Hi).
      destruct (GB (block_start N k + t + 1)%nat) as (E1 & E2);
        [intros k' Hk'; now apply NotStart|].
      rewrite E1, E2 in H.
      replace (S (block_start N k + t + 1)) with (block_start N k + t + 2)%nat in H by lia.
      rewrite (Res k t Hk Ht) in H. lra.
  - intros (HS & HM) i Hi.
    destruct (constraint_index_cases N HN i Hi) as [(k & Hk & ->)|[(k & t & Hk & Ht & ->)|Hl]].
    + destruct (GA k Hk) as (-> & ->).
      replace (S (block_start N k)) with (block_start N k + 1)%nat by lia.
      rewrite (Pin k Hk), (HS k Hk). lra.
    + destruct (GB (block_start N k + t + 1)%nat) as (-> & ->);
        [intros k' Hk'; now apply NotStart|].
      replace (S (block_start N k + t + 1)) with (block_start N k + t + 2)%nat by lia.
      rewrite (Res k t Hk Ht).
      rewrite (proj1 (follows_model_residuals N HN coeffs vars t) (HM t Ht) k Hk). lra.
    + destruct (GB i) as (-> & ->); [intros k' Hk'; now apply LastNotStart|].
      rewrite (Kept i Hl). lra.
Qed.

Lemma FG_eval_cost_entries (coeffs fg vars vars' : vec) :
  (0 < length fg)%nat ->
  same_cost_entries N vars vars' ->
  vget (FG_eval N coeffs fg vars) 0 = vget (FG_eval N coeffs fg vars') 0.
Proof.
  intros Hfg (HE & HA). rewrite !FG_eval_cost by exact Hfg.
  f_equal; [f_equal|]; apply sum_below_ext; intros t Ht.
  - unfold errors_term. destruct (HE t Ht) as (-> & -> & ->). reflexivity.
  - unfold actuators_term. destruct (HA t Ht) as (-> & ->). reflexivity.
  - unfold changes_term. destruct (HA t) as (-> & ->); [lia|].
    destruct (HA (t + 1)%nat) as (D & A); [lia|].
    replace (delta_start N + (t + 1))%nat with (delta_start N + t + 1)%nat in D by lia.
    replace (a_start N + (t + 1))%nat with (a_start N + t + 1)%nat in A by lia.
    rewrite D, A. reflexivity.
Qed.

End Feasibility.

(** X8.  The constraints of the problem [MPC::Solve] poses, evaluated by
    [FG_eval] into a vector [fg] whose six unassigned entries are [0], hold
    for a decision vector exactly when its state of time [0] is the state
    given to [Solve] and each of its states of the times [1 .. N-2] is the
    one the kinematic model gives from the state and the actuation of the
    time before. *)
Theorem constraints_hold_iff_trajectory_follows_model
        (N : nat) (state coeffs fg vars : vec) :
  (2 <= N)%nat ->
  length fg = S (MPC.n_constraints N) ->
  (forall i, Aux.last_state_index N i -> vget fg (S i) = 0%R) ->
  Props.constraints_hold N (MPC.Solve_problem N state coeffs)
                         (MPC.FG_eval N coeffs fg vars)
  <-> Props.starts_at N state vars
      /\ forall t, (t < N - 2)%nat -> Props.follows_model N coeffs vars t.
Proof. intros HN. now apply constraints_hold_characterised. Qed.

Lemma constraints_hold_iff_trajectory_follows_model_witness :
  Props.constraints_hold 15 (MPC.Solve_problem 15 (vnew 6) (vnew 4))
                         (MPC.FG_eval 15 (vnew 4) (vnew 91) Examples.only_x14)
  <-> Props.starts_at 15 (vnew 6) Examples.only_x14
      /\ forall t, (t < 15 - 2)%nat -> Props.follows_model 15 (vnew 4) Examples.only_x14 t.
Proof.
  apply (constraints_hold_iff_trajectory_follows_model 15 (vnew 6) (vnew 4) (vnew 91)
           Examples.only_x14); [lia | reflexivity |].
  intros i _. apply vget_vnew.
Defined.

(** X9.  The objective of [FG_eval] reads the speeds, the two errors and
    the actuations of the decision vector and nothing else: two decision
    vectors with the same [v], [cte], [epsi], [delta] and [a] entries have
    the same objective, whatever their positions and headings. *)
Theorem objective_ignores_positions_and_headings
        (N : nat) (coeffs fg vars vars' : vec) :
  (2 <= N)%nat ->
  length fg = S (MPC.n_constraints N) ->
  Props.same_cost_entries N vars vars' ->
  vget (MPC.FG_eval N coeffs fg vars) 0 = vget (MPC.FG_eval N coeffs fg vars') 0.
Proof. intros HN Hfg H. apply FG_eval_cost_entries; first [exact H | lia]. Qed.

Lemma objective_ignores_positions_and_headings_witness :
  vget (MPC.FG_eval 15 (vnew 4) (vnew 91) (vnew 118)) 0
  = vget (MPC.FG_eval 15 (vnew 4) (vnew 91) Examples.only_x14) 0.
Proof.
  apply (objective_ignores_positions_and_headings 15 (vnew 4) (vnew 91) (vnew 118)
           Examples.only_x14); [lia | reflexivity |].
  unfold Examples.only_x14.
  split; intros t Ht; repeat split; rewrite vget_vset_neq; auto;
    unfold MPC.a_start, MPC.delta_start, MPC.epsi_start, MPC.cte_start, MPC.v_start,
      MPC.psi_start, MPC.y_start, MPC.x_start; lia.
Defined.

(** X10.  The point [MPC::Solve] gives the solver to start from has one
    entry per variable, holds the state given to [Solve] as its state of
    time [0], and is zero everywhere else. *)
Theorem Solve_starting_point (N : nat) (state coeffs : vec) :
  (2 <= N)%nat ->
  let P := MPC.Solve_problem N state coeffs in
  length (MPC.xi P) = MPC.n_vars N
  /\ Props.starts_at N state (MPC.xi P)
  /\ (forall i, (forall k, (k < 6)%nat -> i <> Aux.block_start N k) ->
        vget (MPC.xi P) i = 0%R).
Proof.
  intros HN P.
  destruct (Solve_problem_start N HN state coeffs) as (L & A & B).
  split; [exact L|]. split; [|exact B].
  apply starts_at_blocks; assumption.
Qed.

Lemma Solve_starting_point_witness :
  let P := MPC.Solve_problem 15 [1; 2; 3; 4; 5; 6]%R (vnew 4) in
  length (MPC.xi P) = MPC.n_vars 15
  /\ Props.starts_at 15 [1; 2; 3; 4; 5; 6]%R (MPC.xi P)
  /\ (forall i, (forall k, (k < 6)%nat -> i <> Aux.block_start 15 k) ->
        vget (MPC.xi P) i = 0%R).
Proof.
  apply (Solve_starting_point 15 [1; 2; 3; 4; 5; 6]%R (vnew 4)). lia.
Defined.

(* ================================================================== *)
(** * The design matrix of polyfit, for every order *)
(* ================================================================== *)

Section Vandermonde.

Import Main Aux.
Local Open Scope R_scope.

Lemma row_fill_powers (x : R) (order k : nat) :
  (k <= order)%nat ->
  let r := for_loop k (fun i r => vset r (i + 1) (vget r i * x))
                    (vset (vnew (order + 1)) 0 1.0) in
  length r = (order + 1)%nat
  /\ forall i, (i <= k)%nat -> vget r i = x ^ i.
Proof.
  induction k as [|k IH]; intros Hk; cbv zeta in *; cbn [for_loop].
  - rewrite length_vset, length_vnew. split; [reflexivity|].
    intros i Hi. replace i with 0%nat by lia.
    rewrite vget_vset_eq by (rewrite length_vnew; lia). simpl. lra.
  - destruct IH as (L & V); [lia|].
    rewrite length_vset. split; [exact L|].
    intros i Hi. rewrite vget_vset, L.
    destruct (Nat.eqb_spec (k + 1) i) as [E|NE]; cbn [andb].
    + replace (k + 1 <? order + 1)%nat with true by (symmetry; apply Nat.ltb_lt; lia).
      rewrite V by lia. subst i. replace (k + 1)%nat with (S k) by lia. simpl. ring.
    + apply V. lia.
Qed.

Lemma design_entries (xs : vec) (order j i : nat) :
  (j < length xs)%nat -> (i <= order)%nat ->
  length (nth j (design xs order) []) = (order + 1)%nat
  /\ mget (design xs order) j i = vget xs j ^ i.
Proof.
  intros Hj Hi. destruct (design_rows xs order) as (_ & V).
  unfold mget. rewrite V by exact Hj. unfold row_fill.
  destruct (row_fill_powers (vget xs j) order order (Nat.le_refl _)) as (L & P).
  split; [exact L | now apply P].
Qed.

End Vandermonde.

(** X11.  For every order, the matrix [polyfit] builds has one row per
    abscissa and [order + 1] columns, and its entry in the row [j] and the
    column [i] is the abscissa [j] to the power [i]. *)
Theorem design_is_the_matrix_of_powers (xvals : vec) (order j i : nat) :
  (j < length xvals)%nat -> (i <= order)%nat ->
  length (Main.design xvals order) = length xvals
  /\ length (nth j (Main.design xvals order) []) = (order + 1)%nat
  /\ Main.mget (Main.design xvals order) j i = (vget xvals j ^ i)%R.
Proof.
  intros Hj Hi. split; [apply design_rows|]. now apply design_entries.
Qed.

Lemma design_is_the_matrix_of_powers_witness :
  length (Main.design [2; 3]%R 5) = length [2; 3]%R
  /\ length (nth 1 (Main.design [2; 3]%R 5) []) = (5 + 1)%nat
  /\ Main.mget (Main.design [2; 3]%R 5) 1 4 = (vget [2; 3] 1 ^ 4)%R.
Proof.
  apply (design_is_the_matrix_of_powers [2; 3]%R 5 1 4); simpl; lia.
Defined.

(* ================================================================== *)
(** * The reply of the handler *)
(* ================================================================== *)

Section ReplyFacts.

Import Main.
Local Open Scope R_scope.

Lemma polyfit_in_range (qr : matrix -> vec -> vec) (xs ys : vec) (order : Z) :
  length xs = length ys ->
  (1 <= order <= Z.of_nat (length xs) - 1)%Z ->
  polyfit qr xs ys order = inr (qr (design xs (Z.to_nat order)) ys).
Proof.
  intros L H. unfold polyfit, assert_that. rewrite L, Nat.eqb_refl. cbn [bind].
  replace (1 <=? order)%Z with true by (symmetry; apply Z.leb_le; lia).
  replace (order <=? Z.of_nat (length ys) - 1)%Z with true
    by (symmetry; apply Z.leb_le; lia).
  reflexivity.
Qed.

Lemma reference_line_points (coeffs : vec) :
  length (fst (reference_line coeffs)) = 11%nat
  /\ length (snd (reference_line coeffs)) = 11%nat
  /\ forall k, (k < 11)%nat ->
       vget (fst (reference_line coeffs)) k = 5 * INR (k + 1)
       /\ vget (snd (reference_line coeffs)) k
          = polyeval coeffs (vget (fst (reference_line coeffs)) k).
Proof.
  unfold reference_line, for_range. cbv zeta.
  cbn [Nat.add Nat.sub for_loop fst snd push_back app length].
  split; [reflexivity|]. split; [reflexivity|].
  intros k Hk.
  do 11 (destruct k as [|k]; [cbn [vget nth Nat.add]; split; [simpl; lra | reflexivity]|]).
  lia.
Qed.

End ReplyFacts.

Section HandlerFacts.

Import Main.
Local Open Scope R_scope.

Lemma polyfit_inr (qr : matrix -> vec -> vec) (xs ys : vec) (order : Z) (c : vec) :
  polyfit qr xs ys order = inr c ->
  length xs = length ys
  /\ (1 <= order <= Z.of_nat (length xs) - 1)%Z
  /\ c = qr (design xs (Z.to_nat order)) ys.
Proof.
  unfold polyfit, assert_that.
  destruct (Nat.eqb_spec (length xs) (length ys)) as [L|L]; cbn [bind]; [|discriminate].
  destruct (Z.leb_spec 1 order) as [O1|O1]; cbn [andb bind]; [|discriminate].
  destruct (Z.leb_spec order (Z.of_nat (length xs) - 1)) as [O2|O2];
    cbn [bind ret]; [|discriminate].
  intros E. injection E as <-. repeat split; auto.
Qed.

Lemma solve_arguments_value (qr : matrix -> vec -> vec) (j : telemetry) :
  length (ptsx j) = length (ptsy j) ->
  (4 <= length (ptsx j))%nat ->
  let w := waypoints_in_car_frame (ptsx j) (ptsy j) (tel_x j) (tel_y j) (tel_psi j) in
  let coeffs := qr (design (fst w) 3) (snd w) in
  solve_arguments qr j
  = inr (latency_state coeffs (speed j) (- steering_angle j) (throttle j), coeffs).
Proof.
  intros L H w coeffs. unfold solve_arguments. cbv zeta. fold w.
  destruct (length_waypoints_in_car_frame (ptsx j) (ptsy j)
              (tel_x j) (tel_y j) (tel_psi j)) as (A & B). fold w in A, B.
  rewrite polyfit_in_range by (try congruence; lia).
  cbn [bind ret]. change (Z.to_nat 3) with 3%nat. fold coeffs.
  now rewrite adjust_steering_opp.
Qed.

Lemma PI_bounds : 3.1415926 < PI < 3.1415927.
Proof.
  pose proof (PI_2_3_7_ineq 4) as H.
  unfold sum_f_R0, tg_alt, PI_2_3_7_tg, Ratan_seq in H.
  simpl in H. lra.
Qed.

Lemma steering_in_degrees (s : R) :
  Rabs s <= 0.436332 -> Rabs (rad2deg s) < 25.
Proof.
  intros H. pose proof PI_bounds as (P1 & P2).
  assert (H' : - (0.436332) <= s <= 0.436332)
    by (unfold Rabs in H; destruct (Rcase_abs s); lra).
  destruct H' as (H1 & H2).
  unfold rad2deg, Rdiv, pi. set (q := / PI).
  assert (Hq : 0 < q) by (apply Rinv_0_lt_compat; lra).
  assert (E : PI * q = 1) by (apply Rinv_r; lra).
  assert (Q1 : 3.1415926 * q < 1) by nra.
  assert (S1 : s * q <= 0.436332 * q) by nra.
  assert (S2 : - (0.436332) * q <= s * q) by nra.
  replace (s * 180 * q) with (180 * (s * q)) by ring.
  apply Rabs_def1; lra.
Qed.

(** The decision vector of the examples is within the bounds of the
    problem posed for [N = 15], whatever the state and the coefficients. *)
Lemma full_throttle_within_bounds (state coeffs : vec) (i : nat) :
  (i < MPC.n_vars 15)%nat ->
  vget (MPC.xl (MPC.Solve_problem 15 state coeffs)) i
  <= vget Examples.full_throttle i
  <= vget (MPC.xu (MPC.Solve_problem 15 state coeffs)) i.
Proof.
  intros Hi.
  destruct (Solve_problem_bounds 15 ltac:(lia) state coeffs) as (_ & Hs & Hd & Ha).
  cbv zeta in Hs, Hd, Ha.
  change (MPC.n_vars 15) with 118%nat in Hi.
  change (MPC.delta_start 15) with 90%nat in Hs, Hd.
  change (MPC.a_start 15) with 104%nat in Ha.
  unfold Examples.full_throttle. rewrite !vget_vset, !length_vset, length_vnew, vget_vnew.
  destruct (Nat.lt_ge_cases i 90) as [H1|H1].
  - destruct (Hs i H1) as (-> & ->).
    replace (104 =? i)%nat with false by (symmetry; apply Nat.eqb_neq; lia).
    replace (90 =? i)%nat with false by (symmetry; apply Nat.eqb_neq; lia).
    cbn [andb]. lra.
  - destruct (Nat.lt_ge_cases i 104) as [H2|H2].
    + destruct (Hd (i - 90)%nat ltac:(lia)) as (A & B).
      replace (90 + (i - 90))%nat with i in A, B by lia. rewrite A, B.
      replace (104 =? i)%nat with false by (symmetry; apply Nat.eqb_neq; lia).
      cbn [andb]. destruct ((90 =? i)%nat && (90 <? 118)%nat); lra.
    + destruct (Ha (i - 104)%nat ltac:(lia)) as (A & B).
      replace (104 + (i - 104))%nat with i in A, B by lia. rewrite A, B.
      replace (90 =? i)%nat with false by (symmetry; apply Nat.eqb_neq; lia).
      cbn [andb]. destruct ((104 =? i)%nat && (104 <? 118)%nat); lra.
Qed.

End HandlerFacts.

(** X12.  For way-point arrays of one length, the handler computes a reply
    exactly when there are at least four way-points (otherwise it ends at
    the assertion of [polyfit]). *)
Theorem handler_replies_iff_four_waypoints
        (N : nat) (householderQr_solve : Main.matrix -> vec -> vec)
        (ipopt_solve : MPC.problem -> MPC.solve_result) (j : Main.telemetry) :
  length (Main.ptsx j) = length (Main.ptsy j) ->
  (exists m, Main.on_telemetry N householderQr_solve ipopt_solve j = inr m)
  <-> (4 <= length (Main.ptsx j))%nat.
Proof.
  intros L. split.
  - intros (m & H).
    destruct (Nat.le_gt_cases 4 (length (Main.ptsx j))) as [G|G]; [exact G|].
    exfalso. unfold Main.on_telemetry, Main.solve_arguments in H. cbv zeta in H.
    destruct (length_waypoints_in_car_frame (Main.ptsx j) (Main.ptsy j)
                (Main.tel_x j) (Main.tel_y j) (Main.tel_psi j)) as (A & B).
    rewrite polyfit_order_too_high in H by (try congruence; lia).
    discriminate.
  - intros G. unfold Main.on_telemetry.
    rewrite (solve_arguments_value householderQr_solve j L G).
    cbn [Main.bind Main.ret]. eexists. reflexivity.
Qed.

Lemma handler_replies_iff_four_waypoints_witness :
  (exists m, Main.on_telemetry 15 Examples.fit_zero
               (Examples.stops_at MPC.success Examples.full_throttle)
               Examples.three_waypoints = inr m)
  <-> (4 <= length (Main.ptsx Examples.three_waypoints))%nat.
Proof.
  apply (handler_replies_iff_four_waypoints 15 Examples.fit_zero
           (Examples.stops_at MPC.success Examples.full_throttle)
           Examples.three_waypoints).
  reflexivity.
Defined.

(** X13.  In a reply of the handler the throttle is the first acceleration
    of the solver's decision vector as it is; the coefficients are the
    least-squares solve on the matrix of powers of the way-points in the
    frame of the car; and the reference line has eleven points, at the
    abscissas [5, 10, .., 55], each on the polynomial of these
    coefficients. *)
Theorem reply_throttle_and_reference_line
        (N : nat) (householderQr_solve : Main.matrix -> vec -> vec)
        (ipopt_solve : MPC.problem -> MPC.solve_result)
        (j : Main.telemetry) (m : Main.steer) :
  Main.on_telemetry N householderQr_solve ipopt_solve j = inr m ->
  let w := Main.waypoints_in_car_frame (Main.ptsx j) (Main.ptsy j)
             (Main.tel_x j) (Main.tel_y j) (Main.tel_psi j) in
  let coeffs := householderQr_solve (Main.design (fst w) 3) (snd w) in
  let state := Main.latency_state coeffs (Main.speed j) (- Main.steering_angle j)
                                  (Main.throttle j) in
  let sol := MPC.x (ipopt_solve (MPC.Solve_problem N state coeffs)) in
  Main.msg_throttle m = vget sol (MPC.a_start N)
  /\ length (Main.next_x m) = 11%nat
  /\ length (Main.next_y m) = 11%nat
  /\ forall k, (k < 11)%nat ->
       (vget (Main.next_x m) k = 5 * INR (k + 1))%R
       /\ vget (Main.next_y m) k = Main.polyeval coeffs (vget (Main.next_x m) k).
Proof.
  intros H w coeffs state sol.
  unfold Main.on_telemetry in H.
  destruct (Main.solve_arguments householderQr_solve j) as [e|[state' coeffs']] eqn:E;
    cbn [Main.bind Main.ret fst snd] in H; [discriminate|].
  assert (Hs : state' = Main.latency_state coeffs' (Main.speed j)
                          (- Main.steering_angle j) (Main.throttle j))
    by (now apply solve_arguments_inr in E).
  assert (Hc : coeffs' = coeffs).
  { unfold Main.solve_arguments in E. cbv zeta in E. fold w in E.
    destruct (Main.polyfit householderQr_solve (fst w) (snd w) 3) as [e|c] eqn:F;
      cbn [Main.bind Main.ret] in E; [discriminate|].
    injection E as _ <-. apply polyfit_inr in F. now destruct F as (_ & _ & ->). }
  subst coeffs'. fold state in Hs. subst state'.
  injection H as <-.
  cbn [Main.msg_throttle Main.next_x Main.next_y].
  destruct (reference_line_points coeffs) as (L1 & L2 & V).
  split; [|split; [exact L1|split; [exact L2|exact V]]].
  unfold MPC.Solve. cbv zeta. rewrite Solve_output_pairs. reflexivity.
Qed.

Lemma reply_throttle_and_reference_line_witness :
  exists m,
    Main.on_telemetry 15 Examples.fit_zero
      (Examples.stops_at MPC.success Examples.full_throttle) Examples.on_the_axis = inr m
    /\ Main.msg_throttle m = vget Examples.full_throttle (MPC.a_start 15)
    /\ length (Main.next_x m) = 11%nat.
Proof.
  assert (E : exists m, Main.on_telemetry 15 Examples.fit_zero
      (Examples.stops_at MPC.success Examples.full_throttle) Examples.on_the_axis = inr m).
  { eexists. unfold Main.on_telemetry, Main.solve_arguments, Main.polyfit.
    cbn. reflexivity. }
  destruct E as (m & E). exists m. split; [exact E|].
  destruct (reply_throttle_and_reference_line 15 Examples.fit_zero
              (Examples.stops_at MPC.success Examples.full_throttle)
              Examples.on_the_axis m E) as (A & B & _).
  split; [exact A | exact B].
Defined.

(** X14.  When the decision vector the solver stops at is within the
    bounds of the problem posed, the steering sent is at most [0.436332] in
    absolute value, which is less than [25] degrees (it is sent in radians,
    not divided by [deg2rad(25)]), and the throttle sent is at most [1] in
    absolute value. *)
Theorem reply_within_actuator_limits
        (N : nat) (householderQr_solve : Main.matrix -> vec -> vec)
        (ipopt_solve : MPC.problem -> MPC.solve_result)
        (j : Main.telemetry) (m : Main.steer) :
  (2 <= N)%nat ->
  Main.on_telemetry N householderQr_solve ipopt_solve j = inr m ->
  (forall state coeffs,
     Main.solve_arguments householderQr_solve j = inr (state, coeffs) ->
     forall i, (i < MPC.n_vars N)%nat ->
       (vget (MPC.xl (MPC.Solve_problem N state coeffs)) i
        <= vget (MPC.x (ipopt_solve (MPC.Solve_problem N state coeffs))) i
        <= vget (MPC.xu (MPC.Solve_problem N state coeffs)) i)%R) ->
  (Rabs (Main.msg_steering_angle m) <= 0.436332)%R
  /\ (Rabs (Main.rad2deg (Main.msg_steering_angle m)) < 25)%R
  /\ (Rabs (Main.msg_throttle m) <= 1)%R.
Proof.
  intros HN H Hb. unfold Main.on_telemetry in H.
  destruct (Main.solve_arguments householderQr_solve j) as [e|[state coeffs]] eqn:E;
    cbn [Main.bind Main.ret fst snd] in H; [discriminate|].
  injection H as <-. cbn [Main.msg_steering_angle Main.msg_throttle].
  specialize (Hb state coeffs eq_refl).
  destruct (Solve_problem_bounds N HN state coeffs) as (_ & _ & Hd & Ha).
  cbv zeta in Hd, Ha.
  assert (Sd : MPC.delta_start N = (6 * N)%nat)
    by (unfold MPC.delta_start, MPC.epsi_start, MPC.cte_start, MPC.v_start,
          MPC.psi_start, MPC.y_start, MPC.x_start; lia).
  assert (Sa : MPC.a_start N = (7 * N - 1)%nat) by (unfold MPC.a_start; lia).
  assert (Sn : MPC.n_vars N = (8 * N - 2)%nat) by (unfold MPC.n_vars; lia).
  destruct (Hd 0%nat ltac:(lia)) as (D1 & D2). destruct (Ha 0%nat ltac:(lia)) as (A1 & A2).
  rewrite Nat.add_0_r in D1, D2, A1, A2.
  pose proof (Hb (MPC.delta_start N) ltac:(lia)) as B1.
  pose proof (Hb (MPC.a_start N) ltac:(lia)) as B2.
  rewrite D1, D2 in B1. rewrite A1, A2 in B2.
  unfold MPC.Solve. cbv zeta. rewrite Solve_output_pairs. cbn [app vget nth].
  assert (S1 : (Rabs (- nth (MPC.delta_start N)
                         (MPC.x (ipopt_solve (MPC.Solve_problem N state coeffs))) 0)
                <= 0.436332)%R).
  { rewrite Rabs_Ropp. apply Rabs_le. unfold vget in B1. lra. }
  split; [exact S1|]. split; [now apply steering_in_degrees|].
  apply Rabs_le. unfold vget in *. lra.
Qed.

Lemma reply_within_actuator_limits_witness :
  exists m,
    Main.on_telemetry 15 Examples.fit_zero
      (Examples.stops_at MPC.success Examples.full_throttle) Examples.on_the_axis = inr m
    /\ (Rabs (Main.msg_steering_angle m) <= 0.436332)%R
    /\ (Rabs (Main.rad2deg (Main.msg_steering_angle m)) < 25)%R
    /\ (Rabs (Main.msg_throttle m) <= 1)%R.
Proof.
  assert (E : exists m, Main.on_telemetry 15 Examples.fit_zero
      (Examples.stops_at MPC.success Examples.full_throttle) Examples.on_the_axis = inr m).
  { eexists. unfold Main.on_telemetry, Main.solve_arguments, Main.polyfit.
    cbn. reflexivity. }
  destruct E as (m & E). exists m. split; [exact E|].
  apply (reply_within_actuator_limits 15 Examples.fit_zero
           (Examples.stops_at MPC.success Examples.full_throttle)
           Examples.on_the_axis m); [lia | exact E |].
  intros state coeffs _ i Hi. apply full_throttle_within_bounds. exact Hi.
Defined.



(* ================================================================== *)
(** * FG_eval writes over what fg held *)
(* ================================================================== *)

Section Overwrite.

Import MPC Aux.
Local Open Scope R_scope.

Variable N : nat.
Hypothesis HN : (2 <= N)%nat.

Lemma length_FG_eval (coeffs fg vars : vec) :
  length fg = S (n_constraints N) ->
  length (FG_eval N coeffs fg vars) = length fg.
Proof.
  intros Hfg. rewrite FG_eval_unfold.
  destruct (after_cost_adds N fg vars ltac:(lia)) as (La & _ & _).
  rewrite length_vset in La.
  destruct (model_constraints_loop N HN coeffs vars
              (vset (vset (vset (vset (vset (vset (after_cost N fg vars)
                 (x_start + 1) (vget vars x_start))
                 (y_start N + 1) (vget vars (y_start N)))
                 (psi_start N + 1) (vget vars (psi_start N)))
                 (v_start N + 1) (vget vars (v_start N)))
                 (cte_start N + 1) (vget vars (cte_start N)))
                 (epsi_start N + 1) (vget vars (epsi_start N)))
              (N - 2) (Nat.le_refl _)) as (L & _).
  - rewrite !length_vset, La. exact Hfg.
  - rewrite L, !length_vset. exact La.
Qed.

Lemma FG_eval_same_result (coeffs fg fg' vars : vec) :
  length fg = S (n_constraints N) ->
  length fg' = S (n_constraints N) ->
  (forall i, last_state_index N i -> vget fg (S i) = vget fg' (S i)) ->
  FG_eval N coeffs fg vars = FG_eval N coeffs fg' vars.
Proof.
  intros Hfg Hfg' Hl.
  apply (nth_ext _ _ 0 0).
  - rewrite !length_FG_eval by assumption. congruence.
  - intros i Hi. rewrite length_FG_eval, Hfg in Hi by assumption.
    change (vget (FG_eval N coeffs fg vars) i = vget (FG_eval N coeffs fg' vars) i).
    destruct i as [|i].
    + rewrite !FG_eval_cost by lia. reflexivity.
    + destruct (FG_eval_assigns N HN coeffs fg vars Hfg) as (Pin & Res).
      destruct (FG_eval_assigns N HN coeffs fg' vars Hfg') as (Pin' & Res').
      destruct (constraint_index_cases N HN i ltac:(lia))
        as [(k & Hk & ->)|[(k & t & Hk & Ht & ->)|Hlast]].
      * replace (S (block_start N k)) with (block_start N k + 1)%nat by lia.
        now rewrite Pin, Pin'.
      * replace (S (block_start N k + t + 1)) with (block_start N k + t + 2)%nat by lia.
        now rewrite Res, Res'.
      * rewrite !(FG_eval_keeps N HN) by (auto; lia). now apply Hl.
Qed.

End Overwrite.

(** X17.  [FG_eval] keeps the length of [fg] and writes over what it held:
    its result depends on the entries [fg] had before the call through the
    six unassigned entries only, so the objective does not add up over
    calls and evaluating twice gives what evaluating once gives. *)
Theorem FG_eval_writes_over_fg (N : nat) (coeffs fg fg' vars : vec) :
  (2 <= N)%nat ->
  length fg = S (MPC.n_constraints N) ->
  length fg' = S (MPC.n_constraints N) ->
  (forall i, Aux.last_state_index N i -> vget fg (S i) = vget fg' (S i)) ->
  length (MPC.FG_eval N coeffs fg vars) = length fg
  /\ MPC.FG_eval N coeffs fg vars = MPC.FG_eval N coeffs fg' vars
  /\ MPC.FG_eval N coeffs (MPC.FG_eval N coeffs fg vars) vars
     = MPC.FG_eval N coeffs fg vars.
Proof.
  intros HN Hfg Hfg' Hl.
  assert (L : length (MPC.FG_eval N coeffs fg vars) = length fg)
    by now apply length_FG_eval.
  split; [exact L|]. split; [now apply FG_eval_same_result|].
  apply FG_eval_same_result; auto; [congruence|].
  intros i Hi. apply FG_eval_keeps; auto; lia.
Qed.

Lemma FG_eval_writes_over_fg_witness :
  length (MPC.FG_eval 15 (vnew 4) (vnew 91) Examples.full_throttle) = length (vnew 91)
  /\ MPC.FG_eval 15 (vnew 4) (vnew 91) Examples.full_throttle
     = MPC.FG_eval 15 (vnew 4) (vset (vnew 91) 0 7%R) Examples.full_throttle
  /\ MPC.FG_eval 15 (vnew 4)
       (MPC.FG_eval 15 (vnew 4) (vnew 91) Examples.full_throttle) Examples.full_throttle
     = MPC.FG_eval 15 (vnew 4) (vnew 91) Examples.full_throttle.
Proof.
  apply (FG_eval_writes_over_fg 15 (vnew 4) (vnew 91) (vset (vnew 91) 0 7%R)
           Examples.full_throttle); [lia | reflexivity | reflexivity |].
  intros i _. now rewrite vget_vset_neq.
Defined.

(* ================================================================== *)
(** * polyfit minimises the squared errors of polyeval *)
(* ================================================================== *)

Section FitFacts.

Import Main Aux.
Local Open Scope R_scope.

Lemma dot_sum (r c : vec) :
  length r = length c ->
  Spec.dot r c = Spec.sum_below (length r) (fun i => vget r i * vget c i).
Proof.
  revert c; induction r as [|a r IH]; intros [|b c] L; simpl in L; try discriminate.
  - reflexivity.
  - cbn [Spec.dot length]. rewrite sum_below_shift, IH by congruence.
    cbn [vget nth]. f_equal.
Qed.

Lemma design_dot_polyeval (xs c : vec) (order j : nat) :
  (j < length xs)%nat -> length c = (order + 1)%nat ->
  Spec.dot (nth j (design xs order) []) c = polyeval c (vget xs j).
Proof.
  intros Hj Hc.
  destruct (design_entries xs order j 0 Hj ltac:(lia)) as (L & _).
  rewrite dot_sum by congruence. rewrite L, polyeval_sum, Hc.
  apply sum_below_ext. intros i Hi.
  destruct (design_entries xs order j i Hj ltac:(lia)) as (_ & E).
  unfold mget in E. rewrite E. ring.
Qed.

Lemma residual_is_polyeval_error (xs ys c : vec) (order : nat) :
  length c = (order + 1)%nat ->
  Spec.residual (design xs order) c ys
  = Spec.sum_below (length xs) (fun j => (polyeval c (vget xs j) - vget ys j) ^ 2).
Proof.
  intros Hc. unfold Spec.residual.
  destruct (design_rows xs order) as (L & _). rewrite L.
  apply sum_below_ext. intros j Hj. now rewrite design_dot_polyeval.
Qed.

End FitFacts.

(** X18.  When Eigen's solve answers a least-squares solution of the
    system it is given, the coefficients [polyfit] returns, for any order it
    accepts, make the sum over the points of the squares of
    [polyeval(coeffs, x_j) - y_j] as small as any [order + 1] coefficients
    can. *)
Theorem polyfit_minimises_polyeval_errors
        (householderQr_solve : Main.matrix -> vec -> vec)
        (xvals yvals : vec) (order : Z) (coeffs : vec) :
  Main.polyfit householderQr_solve xvals yvals order = inr coeffs ->
  Spec.least_squares (Z.to_nat order + 1) (Main.design xvals (Z.to_nat order)) yvals
    (householderQr_solve (Main.design xvals (Z.to_nat order)) yvals) ->
  length coeffs = (Z.to_nat order + 1)%nat
  /\ forall c', length c' = (Z.to_nat order + 1)%nat ->
       (Spec.sum_below (length xvals)
          (fun j => (Main.polyeval coeffs (vget xvals j) - vget yvals j) ^ 2)
        <= Spec.sum_below (length xvals)
             (fun j => (Main.polyeval c' (vget xvals j) - vget yvals j) ^ 2))%R.
Proof.
  intros H (Hc & Hmin). apply polyfit_inr in H. destruct H as (_ & _ & ->).
  split; [exact Hc|]. intros c' Hc'.
  rewrite <- !(residual_is_polyeval_error xvals yvals _ (Z.to_nat order))
    by assumption.
  now apply Hmin.
Qed.

Lemma polyfit_minimises_polyeval_errors_witness :
  length Examples.cubic = (Z.to_nat 3 + 1)%nat
  /\ forall c', length c' = (Z.to_nat 3 + 1)%nat ->
       (Spec.sum_below (length [0; 1; 2; 3]%R)
          (fun j => (Main.polyeval Examples.cubic (vget [0; 1; 2; 3] j)
                     - vget (map (Main.polyeval Examples.cubic) [0; 1; 2; 3]%R) j) ^ 2)
        <= Spec.sum_below (length [0; 1; 2; 3]%R)
             (fun j => (Main.polyeval c' (vget [0; 1; 2; 3] j)
                        - vget (map (Main.polyeval Examples.cubic) [0; 1; 2; 3]%R) j) ^ 2))%R.
Proof.
  apply (polyfit_minimises_polyeval_errors Examples.fit_cubic [0; 1; 2; 3]%R
           (map (Main.polyeval Examples.cubic) [0; 1; 2; 3]%R) 3 Examples.cubic).
  - reflexivity.
  - apply least_squares_of_samples. reflexivity.
Defined.

(* ================================================================== *)
(** * A straight path ahead of the car *)
(* ================================================================== *)

Section StraightPath.

Import Main.
Local Open Scope R_scope.




End StraightPath.


